(** * The in-memory TF-IDF keyword index of [app/vectorstore.py]

    A shallow embedding of [_tokenize], [_KeywordStore], [_ScoredPoint] and
    the keyword branch of [VectorStore], followed by the properties of the
    lexical index.

    Modelling conventions.
    - Python [int] is [Z]; Python [float] is idealised as a real number
      ([R]) in [_KeywordStore]: rounding, overflow and underflow of
      binary64 arithmetic are not part of that model.  Module [binary64]
      has [_cosine] once more on IEEE 754 binary64 numbers, where its
      product of norms can underflow or overflow.
    - A raised exception is a value [Raise e] of the [Result] type.
    - A [dict] (or [Counter]) that the code iterates over is an association
      list in insertion order; a [dict] that is only read and written by
      key is a [gmap].
    - A [str] is a sequence of code points below U+0100. *)

From Stdlib Require Import PrimFloat.
From Stdlib Require Import Reals Lra.
From stdpp Require Import base option list gmap strings fin_maps sorting.

Local Open Scope Z_scope.

(** ** Exceptions *)

Inductive PyError := KeyError | ZeroDivisionError | ValueError.

Inductive Result (A : Type) :=
  | Ok (a : A)
  | Raise (e : PyError).
Arguments Ok {A} a.
Arguments Raise {A} e.

#[global] Instance Result_ret : MRet Result := @Ok.
#[global] Instance Result_bind : MBind Result := λ A B k r,
  match r with
  | Ok a => k a
  | Raise e => Raise e
  end.

(** [[f(x) for x in l]] where [f] may raise: the first exception aborts. *)
Fixpoint map_result {A B : Type} (f : A → Result B) (l : list A)
  : Result (list B) :=
  match l with
  | [] => Ok []
  | x :: l' => y ← f x; ys ← map_result f l'; Ok (y :: ys)
  end.

(** A loop [for x in l: acc = body(acc, x)] whose body may raise. *)
Fixpoint fold_result {A S : Type} (body : S → A → Result S) (l : list A)
    (acc : S) : Result S :=
  match l with
  | [] => Ok acc
  | x :: l' => acc' ← body acc x; fold_result body l' acc'
  end.

(** ** Insertion-ordered dictionaries *)

Section Dict.
Context {V : Type}.

(** [d.get(k)] *)
Fixpoint dict_get (k : string) (d : list (string * V)) : option V :=
  match d with
  | [] => None
  | (k', v) :: d' => if decide (k = k') then Some v else dict_get k d'
  end.

(** [d[k] = v]: an existing key keeps its position, a new key goes last. *)
Fixpoint dict_set (k : string) (v : V) (d : list (string * V))
  : list (string * V) :=
  match d with
  | [] => [(k, v)]
  | (k', v') :: d' =>
      if decide (k = k') then (k, v) :: d' else (k', v') :: dict_set k v d'
  end.

(** [d[k]], which raises [KeyError] on a missing key. *)
Definition dict_getitem (k : string) (d : list (string * V)) : Result V :=
  match dict_get k d with
  | Some v => Ok v
  | None => Raise KeyError
  end.
End Dict.

(** [collections.Counter]: a dictionary of integer counts, where reading a
    missing key gives 0 and does not store it. *)
Abbreviation Counter := (list (string * Z)).

Definition counter_get (c : Counter) (k : string) : Z :=
  default 0 (dict_get k c).

(** [Counter(tokens)]: counts the elements from left to right. *)
Definition Counter_of (tokens : list string) : Counter :=
  fold_left (fun c t => dict_set t (counter_get c t + 1) c) tokens [].

(** ** Tokenizer *)

(** [\w] under [re.UNICODE], on the code points below U+0100: the ASCII
    letters, digits and the underscore, and the Latin-1 code points that
    are alphabetic or numeric. *)
Definition is_word_char (c : Ascii.ascii) : bool :=
  let n := Z.of_N (Ascii.N_of_ascii c) in
  ((48 <=? n) && (n <=? 57)) || ((65 <=? n) && (n <=? 90)) || (n =? 95)
  || ((97 <=? n) && (n <=? 122))
  || (n =? 170) || (n =? 178) || (n =? 179) || (n =? 181) || (n =? 185)
  || (n =? 186) || ((188 <=? n) && (n <=? 190))
  || ((192 <=? n) && (n <=? 214)) || ((216 <=? n) && (n <=? 246))
  || ((248 <=? n) && (n <=? 255)).

(** [str.lower] on one code point below U+0100; there it maps one code
    point to one code point (above U+0100 it need not, as for U+0130). *)
Definition lower_char (c : Ascii.ascii) : Ascii.ascii :=
  let n := Z.of_N (Ascii.N_of_ascii c) in
  if ((65 <=? n) && (n <=? 90)) || ((192 <=? n) && (n <=? 214))
     || ((216 <=? n) && (n <=? 222))
  then Ascii.ascii_of_N (Z.to_N (n + 32)) else c.

Fixpoint lower (s : string) : string :=
  match s with
  | EmptyString => EmptyString
  | String c s' => String (lower_char c) (lower s')
  end.

Definition flush (cur : string) : list string :=
  match cur with
  | EmptyString => []
  | _ => [cur]
  end.

(** [_token_re.findall]: the maximal runs of word characters, left to
    right; [cur] is the run being read. *)
Fixpoint findall_from (cur : string) (text : string) : list string :=
  match text with
  | EmptyString => flush cur
  | String c text' =>
      if is_word_char c then findall_from (cur +:+ String c EmptyString) text'
      else flush cur ++ findall_from EmptyString text'
  end.

Definition _token_re_findall (text : string) : list string :=
  findall_from EmptyString text.

Definition _tokenize (text : string) : list string :=
  map lower (_token_re_findall text).

(** ** Float and integer primitives that may raise *)

(** [a / b] on integers (true division). *)
Definition int_truediv (a b : Z) : Result R :=
  if b =? 0 then Raise ZeroDivisionError else Ok (IZR a / IZR b)%R.

(** [math.log(x)] *)
Definition math_log (x : R) : Result R :=
  if Rle_dec x 0 then Raise ValueError else Ok (ln x).

(** [math.sqrt(x)] *)
Definition math_sqrt (x : R) : Result R :=
  if Rlt_dec x 0 then Raise ValueError else Ok (sqrt x).

(** [a / b] on floats, read on the reals: the divisor [sqrt(na * nb)] of
    [_cosine] is 0 here only when a norm is 0, while in binary64 the
    product can underflow to 0.0 (see [binary64.float_truediv]). *)
Definition float_truediv (a b : R) : Result R :=
  if Req_dec_T b 0 then Raise ZeroDivisionError else Ok (a / b)%R.

(** ** Sorting and slicing *)

(** [<] on Python strings: lexicographic on code points. *)
Definition str_lt (a b : string) : bool :=
  match String.compare a b with
  | Lt => true
  | _ => false
  end.

(** [<] on [(score, doc_id)] tuples: the first components that differ
    decide. *)
Definition tuple_lt (x y : R * string) : bool :=
  if Req_dec_T x.1 y.1 then str_lt x.2 y.2
  else if Rlt_dec x.1 y.1 then true else false.

(** A stable ascending sort that compares with [<] only, which is what
    [list.sort] is specified to be. *)
Fixpoint insert_sorted (x : R * string) (l : list (R * string))
  : list (R * string) :=
  match l with
  | [] => [x]
  | y :: l' => if tuple_lt y x then y :: insert_sorted x l' else x :: y :: l'
  end.

Fixpoint list_sort (l : list (R * string)) : list (R * string) :=
  match l with
  | [] => []
  | x :: l' => insert_sorted x (list_sort l')
  end.

(** [l.sort(reverse=True)]: reverse, sort stably, reverse. *)
Definition list_sort_reverse (l : list (R * string)) : list (R * string) :=
  reverse (list_sort (reverse l)).

(** [l[:k]]: a negative [k] counts from the end of the list. *)
Definition slice_to {A : Type} (l : list A) (k : Z) : list A :=
  if k <? 0 then take (Z.to_nat (Z.of_nat (length l) + k)) l
  else take (Z.to_nat k) l.

(** [a | b] on dictionaries: the keys of [b] win. *)
Definition dict_or (a b : gmap string string) : gmap string string := b ∪ a.

(** ** [_ScoredPoint] *)

Module _ScoredPoint.
Record t := __init__ {
  id : string;
  score : R;
  payload : gmap string string
}.
End _ScoredPoint.

(** ** [_KeywordStore] *)

Module _KeywordStore.

(** The value stored under a [doc_id] in [docs]: [{"payload": ...}]. *)
Record Doc := { payload : gmap string string }.

Record t := {
  docs : gmap string Doc;
  term_df : gmap string Z;
  doc_tokens : list (string * Counter);
  N : Z
}.

Definition __init__ : t :=
  {| docs := ∅; term_df := ∅; doc_tokens := []; N := 0 |}.

(** [term_df[term]] on a [Counter]: 0 for a missing key. *)
Definition df_get (df : gmap string Z) (term : string) : Z :=
  default 0 (df !! term).

(** The loop over [prev_terms] in [add]. *)
Definition retract_term (df : gmap string Z) (term : string) : gmap string Z :=
  let df1 := <[term := df_get df term - 1]> df in
  if df_get df1 term <=? 0 then delete term df1 else df1.

Definition retract (prev_terms : Counter) (df : gmap string Z)
  : gmap string Z :=
  fold_left (fun df kv => retract_term df kv.1) prev_terms df.

(** The loop over [tf.keys()] in [add]. *)
Definition apply_terms (tf : Counter) (df : gmap string Z) : gmap string Z :=
  fold_left (fun df kv => <[kv.1 := df_get df kv.1 + 1]> df) tf df.

Definition add (self : t) (doc_id text : string)
    (payload : gmap string string) : Result t :=
  df1 ← (if bool_decide (is_Some (docs self !! doc_id)) then
            prev_terms ← dict_getitem doc_id (doc_tokens self);
            Ok (retract prev_terms (term_df self))
          else Ok (term_df self));
  let tokens := _tokenize text in
  let tf := Counter_of tokens in
  let doc_tokens' := dict_set doc_id tf (doc_tokens self) in
  let df2 := apply_terms tf df1 in
  let docs' :=
    <[doc_id := {| payload := dict_or payload {["text" := text]} |}]>
      (docs self) in
  Ok {| docs := docs'; term_df := df2; doc_tokens := doc_tokens';
        N := Z.of_nat (size docs') |}.

Definition _tfidf_vec (self : t) (tf : Counter) : Result (list (string * R)) :=
  fold_result (fun vec kv =>
           let '(term, f) := kv in
           let df := df_get (term_df self) term in
           if (df =? 0) || (N self =? 0) then Ok vec
           else
             q ← int_truediv (1 + N self) (1 + df);
             l ← math_log q;
             let idf := (l + 1)%R in
             Ok (dict_set term (IZR f * idf)%R vec))
        tf [].

(** [_cosine] with its arithmetic on the reals; [binary64._cosine] is the
    same function on binary64 numbers. *)
Definition _cosine (a b : list (string * R)) : Result R :=
  match a, b with
  | [], _ | _, [] => Ok 0%R
  | _, _ =>
      let '(small, big) :=
        if (length a <? length b)%nat then (a, b) else (b, a) in
      let dot :=
        fold_left (fun dot kv =>
                     match dict_get kv.1 big with
                     | Some w => (dot + kv.2 * w)%R
                     | None => dot
                     end) small 0%R in
      let na := fold_left (fun na kv => (na + kv.2 * kv.2)%R) a 0%R in
      let nb := fold_left (fun nb kv => (nb + kv.2 * kv.2)%R) b 0%R in
      if Req_dec_T na 0 then Ok 0%R
      else if Req_dec_T nb 0 then Ok 0%R
      else s ← math_sqrt (na * nb); float_truediv dot s
  end.

(** The scoring loop of [search]. *)
Definition score_doc (self : t) (q_vec : list (string * R))
    (entry : string * Counter) : Result (R * string) :=
  let '(doc_id, tf) := entry in
  d_vec ← _tfidf_vec self tf;
  score ← _cosine q_vec d_vec;
  Ok (score, doc_id).

(** The result loop of [search]. *)
Definition make_point (self : t) (entry : R * string)
  : Result _ScoredPoint.t :=
  let '(score, doc_id) := entry in
  match docs self !! doc_id with
  | Some d => Ok (_ScoredPoint.__init__ doc_id score (payload d))
  | None => Raise KeyError
  end.

Definition search (self : t) (query : string) (top_k : Z)
  : Result (list _ScoredPoint.t) :=
  let q_tf := Counter_of (_tokenize query) in
  q_vec ← _tfidf_vec self q_tf;
  scores ← map_result (score_doc self q_vec) (doc_tokens self);
  let scores := list_sort_reverse scores in
  map_result (make_point self) (slice_to scores top_k).

End _KeywordStore.

(** ** [_cosine] on binary64 numbers *)

(** [_KeywordStore._cosine] with Python's [float] as it is, an IEEE 754
    binary64 number ([PrimFloat.float]): the same statements, with the
    arithmetic, comparisons and [math.sqrt] of binary64. *)
Module binary64.

(** [math.sqrt(x)]: [ValueError] below 0, the IEEE square root otherwise
    (also of an infinity or a NaN). *)
Definition math_sqrt (x : PrimFloat.float) : Result PrimFloat.float :=
  if PrimFloat.ltb x 0%float then Raise ValueError else Ok (PrimFloat.sqrt x).

(** [a / b]: [ZeroDivisionError] when [b == 0.0], the IEEE quotient
    otherwise. *)
Definition float_truediv (a b : PrimFloat.float) : Result PrimFloat.float :=
  if PrimFloat.eqb b 0%float then Raise ZeroDivisionError
  else Ok (PrimFloat.div a b).

(** The loops [for v in a.values(): na += v * v]. *)
Definition sum_squares (v : list (string * PrimFloat.float)) : PrimFloat.float :=
  fold_left (fun na kv => PrimFloat.add na (PrimFloat.mul kv.2 kv.2)) v 0%float.

Definition _cosine (a b : list (string * PrimFloat.float))
  : Result PrimFloat.float :=
  match a, b with
  | [], _ | _, [] => Ok 0%float
  | _, _ =>
      let '(small, big) :=
        if (length a <? length b)%nat then (a, b) else (b, a) in
      let dot :=
        fold_left (fun dot kv =>
                     match dict_get kv.1 big with
                     | Some w => PrimFloat.add dot (PrimFloat.mul kv.2 w)
                     | None => dot
                     end) small 0%float in
      let na := sum_squares a in
      let nb := sum_squares b in
      if PrimFloat.eqb na 0%float then Ok 0%float
      else if PrimFloat.eqb nb 0%float then Ok 0%float
      else s ← math_sqrt (PrimFloat.mul na nb); float_truediv dot s
  end.


End binary64.

(** ** Sequences of [add] calls *)

Record AddCall := {
  call_doc_id : string;
  call_text : string;
  call_payload : gmap string string
}.

(** The store after the calls, made one after the other on [self]. *)
Definition add_all (self : _KeywordStore.t) (calls : list AddCall)
  : Result _KeywordStore.t :=
  fold_result
    (fun s c => _KeywordStore.add s (call_doc_id c) (call_text c) (call_payload c))
    calls self.

(** ** [VectorStore] *)

Module VectorStore.
Section External.

(** The dense index (the in-memory Qdrant collection fed by the Azure
    embedding service) is not part of this repository: its client and the
    two calls made on it are parameters. *)
Context {QdrantClient : Type}.
Context (new_client : Result QdrantClient).
Context (client_upsert :
  QdrantClient → string → string → gmap string string → Result QdrantClient).
Context (client_search :
  QdrantClient → string → Z → Result (list _ScoredPoint.t)).

(** [_mode] with the field that exists in that mode. *)
Inductive t :=
  | embeddings (client : QdrantClient)
  | keywords (_kw : _KeywordStore.t).

(** [settings.azure_openai_embeddings_deployment] is [None], or a string
    that is true when it is not empty. *)
Definition __init__ (azure_openai_embeddings_deployment : option string)
  : Result t :=
  match azure_openai_embeddings_deployment with
  | Some (String _ _) => client ← new_client; Ok (embeddings client)
  | _ => Ok (keywords _KeywordStore.__init__)
  end.

(** [{"text": text, **metadata}]: the later keys win. *)
Definition text_and (text : string) (metadata : gmap string string)
  : gmap string string :=
  dict_or {["text" := text]} metadata.

Definition add_document (self : t) (doc_id text : string)
    (metadata : gmap string string) : Result t :=
  match self with
  | embeddings client =>
      client' ← client_upsert client doc_id text (text_and text metadata);
      Ok (embeddings client')
  | keywords _kw =>
      _kw' ← _KeywordStore.add _kw doc_id text (text_and text metadata);
      Ok (keywords _kw')
  end.

Definition query (self : t) (text : string) (top_k : Z)
  : Result (list _ScoredPoint.t) :=
  match self with
  | embeddings client => client_search client text top_k
  | keywords _kw => _KeywordStore.search _kw text top_k
  end.

(** A session on one store: the calls made on it, in order, and what each
    returned ([None] for [add_document]). *)
Inductive Call :=
  | AddDocument (doc_id text : string) (metadata : gmap string string)
  | Query (text : string) (top_k : Z).

Definition step (self : t) (c : Call)
  : Result (t * option (list _ScoredPoint.t)) :=
  match c with
  | AddDocument doc_id text metadata =>
      self' ← add_document self doc_id text metadata; Ok (self', None)
  | Query text top_k =>
      pts ← query self text top_k; Ok (self, Some pts)
  end.

Fixpoint session (self : t) (calls : list Call)
  : Result (t * list (option (list _ScoredPoint.t))) :=
  match calls with
  | [] => Ok (self, [])
  | c :: calls' =>
      r ← step self c;
      r' ← session r.1 calls';
      Ok (r'.1, r.2 :: r'.2)
  end.

End External.
End VectorStore.

(** ** Quantities the properties speak about *)

(** The term is a key of the term-frequency table. *)
Definition has_term (term : string) (tf : Counter) : bool :=
  bool_decide (is_Some (dict_get term tf)).

(** The number of stored documents whose term-frequency table contains
    the term. *)
Definition doc_count (term : string) (dt : list (string * Counter)) : nat :=
  length (filter (fun e => has_term term e.2 = true) dt).

(** The squared Euclidean norm of a sparse vector. *)
Definition norm2 (v : list (string * R)) : R :=
  fold_right (fun kv acc => (kv.2 * kv.2 + acc)%R) 0%R v.

(** The smoothed inverse document frequency. *)
Definition idf (n df : Z) : R := (ln (IZR (1 + n) / IZR (1 + df)) + 1)%R.

(** The weight the specification gives a term of raw frequency [f]. *)
Definition spec_weight (self : _KeywordStore.t) (term : string) (f : Z)
  : option R :=
  let df := _KeywordStore.df_get (_KeywordStore.term_df self) term in
  let n := _KeywordStore.N self in
  if bool_decide (0 < df ∧ 0 < n) then Some (IZR f * idf n df)%R else None.

(** The order of the results: score descending, then [doc_id] descending. *)
Definition ranked_before (p p' : _ScoredPoint.t) : Prop :=
  (_ScoredPoint.score p' < _ScoredPoint.score p)%R
  ∨ (_ScoredPoint.score p = _ScoredPoint.score p'
     ∧ str_lt (_ScoredPoint.id p') (_ScoredPoint.id p) = true).

(** ** Auxiliary definitions for the proofs *)

Import _KeywordStore.

(** What a [Counter] built from a list of tokens looks like: no key
    twice, every count at least 1. *)
Definition is_counter (tf : Counter) : Prop :=
  NoDup tf.*1 ∧ Forall (fun kv => 1 ≤ kv.2) tf.

(** 1 for [true], 0 for [false]. *)
Definition b2n (b : bool) : nat := if b then 1%nat else 0%nat.

(** The entry of the document-frequency table for a term that [c]
    stored documents contain: absent when [c] is 0. *)
Definition df_entry (c : nat) : option Z :=
  if decide (c = 0%nat) then None else Some (Z.of_nat c).

(** What every store built by [add] calls satisfies: [docs] and
    [doc_tokens] have the same keys, each once; [N] is their number; every
    stored table is the [Counter] of a tokenized text; and the
    document-frequency table holds, for each term, the number of stored
    documents that contain it. *)
Record Inv (s : _KeywordStore.t) : Prop := {
  inv_nodup : NoDup (doc_tokens s).*1;
  inv_docs : ∀ d, is_Some (docs s !! d) ↔ d ∈ (doc_tokens s).*1;
  inv_N : N s = Z.of_nat (size (docs s));
  inv_size : size (docs s) = length (doc_tokens s);
  inv_tf : Forall (fun e => ∃ text, e.2 = Counter_of (_tokenize text))
             (doc_tokens s);
  inv_df : ∀ term, term_df s !! term = df_entry (doc_count term (doc_tokens s))
}.

(** [x <= y] on tuples, as the sort sees it: not [y < x]. *)
Definition tuple_le (x y : R * string) : Prop := tuple_lt y x = false.

(** One round of the loop of [_tfidf_vec] as the specification words it:
    a term with a weight is stored, a term without one is dropped. *)
Definition spec_step (s : _KeywordStore.t) (vec : list (string * R))
    (kv : string * Z) : list (string * R) :=
  match spec_weight s kv.1 kv.2 with
  | Some w => dict_set kv.1 w vec
  | None => vec
  end.

(** The sparse vector of the specification. *)
Definition spec_vec (s : _KeywordStore.t) (tf : Counter) : list (string * R) :=
  fold_left (spec_step s) tf [].

(** The value [_cosine] returns (it never raises, see [_cosine_spec]). *)
Definition cosine (a b : list (string * R)) : R :=
  match _cosine a b with
  | Ok r => r
  | Raise _ => 0%R
  end.

(** The query vector. *)
Definition query_vec (s : _KeywordStore.t) (query : string) : list (string * R) :=
  spec_vec s (Counter_of (_tokenize query)).

(** The list [scores] of [search] before it is sorted: one tuple for each
    stored document, in the order of [doc_tokens]. *)
Definition scores_of (s : _KeywordStore.t) (query : string) : list (R * string) :=
  map (fun e => (cosine (query_vec s query) (spec_vec s e.2), e.1))
      (doc_tokens s).

(** The result built from a tuple. *)
Definition point_of (s : _KeywordStore.t) (e : R * string) : _ScoredPoint.t :=
  _ScoredPoint.__init__ e.2 e.1 (default ∅ (payload <$> docs s !! e.2)).

(** All the stored documents in the order of the results. *)
Definition ranking (s : _KeywordStore.t) (query : string) : list _ScoredPoint.t :=
  map (point_of s) (list_sort_reverse (scores_of s query)).

(** The raw frequency of a term: how often it occurs among the tokens. *)
Definition occurrences (term : string) (tokens : list string) : nat :=
  length (filter (fun t => t = term) tokens).

(** Sample corpora. *)
Definition three_docs : list AddCall :=
  [ {| call_doc_id := "d1"; call_text := "fever cough"; call_payload := ∅ |};
    {| call_doc_id := "d2"; call_text := "weather"; call_payload := ∅ |};
    {| call_doc_id := "d3"; call_text := "cough"; call_payload := ∅ |} ].

Definition update_calls : list AddCall :=
  [ {| call_doc_id := "d1"; call_text := "alpha beta"; call_payload := ∅ |};
    {| call_doc_id := "d1"; call_text := "gamma"; call_payload := ∅ |} ].

Definition two_docs : list AddCall :=
  [ {| call_doc_id := "d1"; call_text := "alpha"; call_payload := ∅ |};
    {| call_doc_id := "d2"; call_text := "beta"; call_payload := ∅ |} ].

(** ** [chat] of [app/main.py] *)

Module main.
Section External.
Context {QdrantClient : Type}.
Context (client_search :
  QdrantClient → string → Z → Result (list _ScoredPoint.t)).

(** ["\n"] *)
Definition newline : string := String (Ascii.ascii_of_nat 10) EmptyString.

(** The retrieval step of [chat], its first two statements:
    [store.query(request.question)] with the default [top_k] of 3, and the
    texts of the results joined by newlines. *)
Definition chat_context (store : VectorStore.t) (question : string)
  : Result string :=
  results ← VectorStore.query client_search store question 3;
  Ok (String.concat newline
        (map (fun point => default EmptyString (_ScoredPoint.payload point !! "text"))
             results)).

End External.
End main.

(** ** Definitions for the further properties *)

(** Every character of the string satisfies the test. *)
Fixpoint all_chars (P : Ascii.ascii → bool) (s : string) : bool :=
  match s with
  | EmptyString => true
  | String c s' => P c && all_chars P s'
  end.

(** What the index keeps of an [add] call: the [doc_id] and the tokens. *)
Definition index_view (c : AddCall) : string * list string :=
  (call_doc_id c, _tokenize (call_text c)).

(** The dot product as [_cosine] accumulates it: over the entries of the
    shorter vector ([b] when the lengths are equal), looked up in the
    other one. *)
Definition dot_of (a b : list (string * R)) : R :=
  let '(small, big) := if (length a <? length b)%nat then (a, b) else (b, a) in
  fold_left (fun dot kv =>
               match dict_get kv.1 big with
               | Some w => (dot + kv.2 * w)%R
               | None => dot
               end) small 0%R.

(** The weight of the key in the vector, 0 when it is absent. *)
Definition weight_in (big : list (string * R)) (k : string) : R :=
  default 0%R (dict_get k big).

(** The dot product as a sum over the entries of [small]. *)
Definition dot_sum (small big : list (string * R)) : R :=
  fold_right (fun kv r => (kv.2 * weight_in big kv.1 + r)%R) 0%R small.

(** Every stored document has the text of its payload indexed. *)
Definition text_indexed (s : _KeywordStore.t) : Prop :=
  ∀ d, match docs s !! d with
       | Some doc =>
           ∃ t, payload doc !! "text" = Some t
                ∧ dict_get d (doc_tokens s) = Some (Counter_of (_tokenize t))
       | None => True
       end.

(** The query has a token that is a term of the table. *)
Definition shares_term (query : string) (tf : Counter) : Prop :=
  ∃ t, t ∈ _tokenize query ∧ t ∈ tf.*1.

(** * Properties *)

(** ** The [Result] type *)

Lemma map_result_Ok {A B : Type} (f : A → Result B) (g : A → B) (l : list A) :
  Forall (fun x => f x = Ok (g x)) l → map_result f l = Ok (map g l).
Proof.
  induction 1 as [|x l Hx _ IH]; simpl; [done|].
  by rewrite Hx; simpl; rewrite IH.
Qed.

Lemma fold_result_Ok {A S : Type} (body : S → A → Result S) (g : S → A → S)
    (l : list A) (acc : S) :
  (∀ s x, x ∈ l → body s x = Ok (g s x)) →
  fold_result body l acc = Ok (fold_left g l acc).
Proof.
  revert acc. induction l as [|x l IH]; intros acc H; simpl; [done|].
  rewrite H by left. simpl. apply IH. intros s y Hy. apply H. by right.
Qed.

Lemma fold_result_app {A S : Type} (body : S → A → Result S) (l1 l2 : list A)
    (acc : S) :
  fold_result body (l1 ++ l2) acc
  = fold_result body l1 acc ≫= fold_result body l2.
Proof.
  revert acc. induction l1 as [|x l1 IH]; intros acc; simpl; [done|].
  destruct (body acc x) as [acc'|e]; simpl; [apply IH|done].
Qed.

(** ** Insertion-ordered dictionaries *)

Section DictFacts.
Context {V : Type}.
Implicit Types (d : list (string * V)) (k : string) (v : V).

Lemma dict_get_set_eq k v d : dict_get k (dict_set k v d) = Some v.
Proof.
  induction d as [|[k' v'] d IH]; simpl.
  - by rewrite decide_True.
  - destruct (decide (k = k')) as [->|Hne]; simpl.
    + by rewrite decide_True.
    + by rewrite decide_False.
Qed.

Lemma dict_get_set_ne k k' v d :
  k ≠ k' → dict_get k' (dict_set k v d) = dict_get k' d.
Proof.
  intros Hne. induction d as [|[k0 v0] d IH]; simpl.
  - by rewrite decide_False.
  - destruct (decide (k = k0)) as [->|Hne0]; simpl.
    + by rewrite !decide_False.
    + by rewrite IH.
Qed.

Lemma dict_get_None k d : dict_get k d = None ↔ k ∉ d.*1.
Proof.
  induction d as [|[k' v'] d IH]; simpl.
  - split; [intros _; apply not_elem_of_nil|done].
  - rewrite not_elem_of_cons. destruct (decide (k = k')) as [->|Hne].
    + split; [done|]. by intros [? _].
    + rewrite IH. tauto.
Qed.

Lemma dict_get_Some_elem k v d : dict_get k d = Some v → (k, v) ∈ d.
Proof.
  induction d as [|[k' v'] d IH]; simpl; [done|].
  destruct (decide (k = k')) as [->|Hne].
  - intros [= ->]. left.
  - intros H. right. by apply IH.
Qed.

Lemma dict_get_elem k v d : NoDup d.*1 → (k, v) ∈ d → dict_get k d = Some v.
Proof.
  induction d as [|[k' v'] d IH]; simpl.
  - intros _ H. by apply elem_of_nil in H.
  - intros [Hnotin Hnd]%NoDup_cons [[= -> ->]|Hin]%elem_of_cons.
    + by rewrite decide_True.
    + rewrite decide_False; [by apply IH|].
      intros ->. apply Hnotin. by apply (list_elem_of_fmap_2 fst) in Hin.
Qed.

Lemma dict_set_keys k v d :
  (dict_set k v d).*1
  = match dict_get k d with Some _ => d.*1 | None => d.*1 ++ [k] end.
Proof.
  induction d as [|[k' v'] d IH]; csimpl; [done|].
  destruct (decide (k = k')) as [->|Hne]; csimpl; [done|].
  rewrite IH. by destruct (dict_get k d).
Qed.

Lemma dict_set_NoDup k v d : NoDup d.*1 → NoDup (dict_set k v d).*1.
Proof.
  intros Hnd. rewrite dict_set_keys.
  destruct (dict_get k d) eqn:Hget; [done|].
  apply NoDup_app. split_and!; [done| |apply NoDup_singleton].
  intros x Hx ->%list_elem_of_singleton. by apply dict_get_None in Hget.
Qed.

Lemma dict_set_length k v d :
  length (dict_set k v d)
  = match dict_get k d with Some _ => length d | None => S (length d) end.
Proof.
  induction d as [|[k' v'] d IH]; simpl; [done|].
  destruct (decide (k = k')) as [->|Hne]; simpl; [done|].
  rewrite IH. by destruct (dict_get k d).
Qed.

End DictFacts.

Lemma dict_set_Forall {V : Type} (P : string * V → Prop) k v (d : list (string * V)) :
  Forall P d → P (k, v) → Forall P (dict_set k v d).
Proof.
  intros Hd Hkv. induction Hd as [|[k' v'] d Hx Hd IH]; simpl.
  - by constructor.
  - destruct (decide (k = k')); by constructor.
Qed.

Lemma dict_get_is_Some {V : Type} k (d : list (string * V)) :
  is_Some (dict_get k d) ↔ k ∈ d.*1.
Proof.
  rewrite <-not_eq_None_Some, dict_get_None.
  split; [apply dec_stable|tauto].
Qed.

Lemma dict_set_key_elem {V : Type} k k' v (d : list (string * V)) :
  k' ∈ (dict_set k v d).*1 ↔ k' = k ∨ k' ∈ d.*1.
Proof.
  rewrite dict_set_keys. destruct (dict_get k d) eqn:Hget.
  - split; [by right|]. intros [->|?]; [|done].
    apply dict_get_is_Some. by rewrite Hget.
  - rewrite elem_of_app, list_elem_of_singleton. tauto.
Qed.

(** ** [Counter] *)

Lemma counter_get_nonneg (c : Counter) k : is_counter c → 0 ≤ counter_get c k.
Proof.
  intros [_ Hpos]. unfold counter_get.
  destruct (dict_get k c) as [v|] eqn:Hget; simpl; [|done].
  apply dict_get_Some_elem in Hget.
  rewrite Forall_forall in Hpos. specialize (Hpos _ Hget). simpl in Hpos. lia.
Qed.

Lemma Counter_fold_is_counter tokens (acc : Counter) :
  is_counter acc →
  is_counter (fold_left (fun c t => dict_set t (counter_get c t + 1) c) tokens acc).
Proof.
  revert acc. induction tokens as [|t tokens IH]; intros acc Hacc; simpl; [done|].
  apply IH. split.
  - apply dict_set_NoDup, Hacc.
  - apply dict_set_Forall; [apply Hacc|]. simpl.
    pose proof (counter_get_nonneg acc t Hacc). lia.
Qed.

Lemma Counter_of_is_counter tokens : is_counter (Counter_of tokens).
Proof.
  apply Counter_fold_is_counter. split; [apply NoDup_nil_2|constructor].
Qed.

Lemma Counter_fold_keys tokens (acc : Counter) k :
  k ∈ (fold_left (fun c t => dict_set t (counter_get c t + 1) c) tokens acc).*1
  ↔ k ∈ acc.*1 ∨ k ∈ tokens.
Proof.
  revert acc. induction tokens as [|t tokens IH]; intros acc; simpl.
  - rewrite elem_of_nil. tauto.
  - rewrite IH, dict_set_key_elem, elem_of_cons. tauto.
Qed.

Lemma Counter_of_keys tokens k : k ∈ (Counter_of tokens).*1 ↔ k ∈ tokens.
Proof.
  unfold Counter_of. rewrite Counter_fold_keys. simpl. rewrite elem_of_nil. tauto.
Qed.

Lemma has_term_true term (tf : Counter) : has_term term tf = true ↔ term ∈ tf.*1.
Proof. unfold has_term. by rewrite bool_decide_eq_true, dict_get_is_Some. Qed.

Lemma has_term_decide term (tf : Counter) :
  bool_decide (term ∈ tf.*1) = has_term term tf.
Proof. apply bool_decide_ext. symmetry. apply dict_get_is_Some. Qed.

(** ** The document-frequency table under [add] *)

Lemma df_get_insert_eq df term c : df_get (<[term := c]> df) term = c.
Proof. unfold df_get. by rewrite lookup_insert_eq. Qed.

Lemma retract_term_lookup df term t :
  retract_term df term !! t
  = if decide (t = term)
    then (if df_get df term - 1 <=? 0 then None else Some (df_get df term - 1))
    else df !! t.
Proof.
  unfold retract_term. rewrite df_get_insert_eq.
  destruct (df_get df term - 1 <=? 0); destruct (decide (t = term)) as [->|Hne].
  - by rewrite lookup_delete_eq.
  - by rewrite lookup_delete_ne, lookup_insert_ne.
  - by rewrite lookup_insert_eq.
  - by rewrite lookup_insert_ne.
Qed.

Lemma retract_lookup (prev : Counter) df t :
  NoDup prev.*1 →
  retract prev df !! t
  = if bool_decide (t ∈ prev.*1)
    then (if df_get df t - 1 <=? 0 then None else Some (df_get df t - 1))
    else df !! t.
Proof.
  unfold retract. revert df.
  induction prev as [|[k c] prev IH]; intros df Hnd; csimpl in *; [done|].
  - apply NoDup_cons in Hnd as [Hk Hnd]. rewrite IH by done.
    unfold df_get at 1 2. rewrite !retract_term_lookup.
    destruct (decide (t = k)) as [->|Hne].
    + rewrite (bool_decide_eq_false_2 (k ∈ prev.*1)) by done.
      by rewrite bool_decide_eq_true_2 by left.
    + destruct (bool_decide (t ∈ prev.*1)) eqn:Hin.
      * apply bool_decide_eq_true in Hin.
        by rewrite bool_decide_eq_true_2 by (by right).
      * apply bool_decide_eq_false in Hin.
        rewrite bool_decide_eq_false_2; [done|].
        rewrite not_elem_of_cons. done.
Qed.

Lemma apply_terms_lookup (tf : Counter) df t :
  NoDup tf.*1 →
  apply_terms tf df !! t
  = if bool_decide (t ∈ tf.*1) then Some (df_get df t + 1) else df !! t.
Proof.
  unfold apply_terms. revert df.
  induction tf as [|[k c] tf IH]; intros df Hnd; csimpl in *; [done|].
  - apply NoDup_cons in Hnd as [Hk Hnd]. rewrite IH by done.
    destruct (decide (t = k)) as [->|Hne].
    + rewrite (bool_decide_eq_false_2 (k ∈ tf.*1)) by done.
      rewrite bool_decide_eq_true_2 by left. by rewrite lookup_insert_eq.
    + unfold df_get at 1. rewrite !lookup_insert_ne by done.
      destruct (bool_decide (t ∈ tf.*1)) eqn:Hin.
      * apply bool_decide_eq_true in Hin.
        by rewrite bool_decide_eq_true_2 by (by right).
      * apply bool_decide_eq_false in Hin.
        rewrite bool_decide_eq_false_2; [done|].
        rewrite not_elem_of_cons. done.
Qed.

(** ** Counting the documents that contain a term *)

Lemma doc_count_cons term d tf (dt : list (string * Counter)) :
  doc_count term ((d, tf) :: dt) = (b2n (has_term term tf) + doc_count term dt)%nat.
Proof.
  unfold doc_count. rewrite filter_cons. simpl.
  by destruct (has_term term tf).
Qed.

Lemma doc_count_nil term : doc_count term [] = 0%nat.
Proof. done. Qed.

Lemma doc_count_set_new term d tf (dt : list (string * Counter)) :
  dict_get d dt = None →
  doc_count term (dict_set d tf dt)
  = (doc_count term dt + b2n (has_term term tf))%nat.
Proof.
  induction dt as [|[d' tf'] dt IH]; simpl.
  - intros _. rewrite doc_count_cons, !doc_count_nil. lia.
  - destruct (decide (d = d')) as [->|Hne]; [done|].
    intros H. rewrite !doc_count_cons, IH by done. lia.
Qed.

Lemma doc_count_set_old term d tf old (dt : list (string * Counter)) :
  dict_get d dt = Some old →
  (doc_count term (dict_set d tf dt) + b2n (has_term term old))%nat
  = (doc_count term dt + b2n (has_term term tf))%nat.
Proof.
  induction dt as [|[d' tf'] dt IH]; simpl; [done|].
  destruct (decide (d = d')) as [->|Hne].
  - intros [= ->]. rewrite !doc_count_cons. lia.
  - intros H. rewrite !doc_count_cons. specialize (IH H). lia.
Qed.

Lemma doc_count_le term (dt : list (string * Counter)) :
  (doc_count term dt ≤ length dt)%nat.
Proof. apply length_filter. Qed.

(** ** The invariant of the store *)

Lemma Inv_init : Inv __init__.
Proof.
  split; simpl.
  - apply NoDup_nil_2.
  - intros d. rewrite lookup_empty, elem_of_nil. split; [by intros [? ?]|done].
  - by rewrite map_size_empty.
  - by rewrite map_size_empty.
  - constructor.
  - intros term. by rewrite lookup_empty.
Qed.

Lemma Inv_stored_counter s d tf :
  Inv s → dict_get d (doc_tokens s) = Some tf → is_counter tf.
Proof.
  intros HI Hget. apply dict_get_Some_elem in Hget.
  pose proof (inv_tf s HI) as Htf. rewrite Forall_forall in Htf.
  destruct (Htf _ Hget) as [text Ht]. simpl in Ht. subst tf.
  apply Counter_of_is_counter.
Qed.

(** The new table, entry by entry, from the old one: [b_old] and [b_new]
    say whether the replaced and the new version contain the term. *)
Lemma df_entry_update (c c' : nat) (b_old b_new : bool) :
  (c' + b2n b_old = c + b2n b_new)%nat → (b2n b_old ≤ c)%nat →
  (if b_new
   then Some (default 0 (if b_old
                         then (if default 0 (df_entry c) - 1 <=? 0 then None
                               else Some (default 0 (df_entry c) - 1))
                         else df_entry c) + 1)
   else (if b_old
         then (if default 0 (df_entry c) - 1 <=? 0 then None
               else Some (default 0 (df_entry c) - 1))
         else df_entry c))
  = df_entry c'.
Proof.
  unfold df_entry. intros Heq Hle.
  destruct b_old, b_new; simpl in Heq, Hle; simpl;
    destruct (decide (c = 0%nat)), (decide (c' = 0%nat)); simpl;
    try lia; try (destruct (Z.leb_spec (Z.of_nat c - 1) 0); simpl);
    try lia; f_equal; lia.
Qed.

Lemma add_Inv s doc_id text payload :
  Inv s → ∃ s', add s doc_id text payload = Ok s' ∧ Inv s'.
Proof.
  intros HI. unfold add.
  set (tf := Counter_of (_tokenize text)).
  assert (is_counter tf) as Htf by apply Counter_of_is_counter.
  destruct (dict_get doc_id (doc_tokens s)) as [old|] eqn:Hget.
  - (* the document is replaced *)
    assert (is_Some (docs s !! doc_id)) as Hsome.
    { apply (inv_docs s HI), dict_get_is_Some. by rewrite Hget. }
    rewrite bool_decide_eq_true_2 by done.
    unfold dict_getitem. rewrite Hget. simpl. eexists. split; [done|].
    pose proof (Inv_stored_counter s doc_id old HI Hget) as Hold.
    split; simpl.
    + apply dict_set_NoDup, HI.
    + intros d. rewrite dict_set_key_elem, lookup_insert_is_Some, (inv_docs s HI).
      destruct (decide (doc_id = d)); intuition congruence.
    + done.
    + destruct Hsome as [x Hx].
      rewrite map_size_insert_Some by done.
      rewrite dict_set_length, Hget. apply HI.
    + apply dict_set_Forall; [apply HI|]. by exists text.
    + intros term.
      rewrite apply_terms_lookup by apply Htf.
      unfold df_get. rewrite retract_lookup by apply Hold.
      unfold df_get. rewrite (inv_df s HI).
      pose proof (doc_count_set_old term doc_id tf old _ Hget) as Hcnt.
      pose proof (doc_count_set_old term doc_id [] old _ Hget) as Hcnt0.
      assert (has_term term [] = false) as E0 by done.
      rewrite E0 in Hcnt0. simpl in Hcnt0.
      rewrite <-(df_entry_update (doc_count term (doc_tokens s)) _
                   (has_term term old) (has_term term tf) Hcnt) by lia.
      by rewrite !has_term_decide.
  - (* the document is new *)
    assert (docs s !! doc_id = None) as Hnone.
    { apply eq_None_not_Some. rewrite (inv_docs s HI).
      by apply dict_get_None. }
    rewrite bool_decide_eq_false_2 by (rewrite Hnone; by intros [? ?]).
    simpl. eexists. split; [done|].
    split; simpl.
    + apply dict_set_NoDup, HI.
    + intros d. rewrite dict_set_key_elem, lookup_insert_is_Some, (inv_docs s HI).
      destruct (decide (doc_id = d)); intuition congruence.
    + done.
    + rewrite map_size_insert_None by done.
      rewrite dict_set_length, Hget. f_equal. apply HI.
    + apply dict_set_Forall; [apply HI|]. by exists text.
    + intros term.
      rewrite apply_terms_lookup by apply Htf.
      unfold df_get. rewrite (inv_df s HI).
      pose proof (doc_count_set_new term doc_id tf _ Hget) as Hcnt.
      assert (doc_count term (dict_set doc_id tf (doc_tokens s)) + b2n false
              = doc_count term (doc_tokens s) + b2n (has_term term tf))%nat
        as Hcnt' by (simpl; lia).
      rewrite <-(df_entry_update (doc_count term (doc_tokens s)) _
                   false (has_term term tf) Hcnt') by (simpl; lia).
      by rewrite has_term_decide.
Qed.

Lemma add_all_snoc s calls c :
  add_all s (calls ++ [c])
  = add_all s calls ≫= fun s' => add s' (call_doc_id c) (call_text c) (call_payload c).
Proof.
  unfold add_all. rewrite fold_result_app. destruct (fold_result _ calls s); simpl; [|done].
  by destruct (add _ _ _ _).
Qed.

Lemma add_all_Inv s calls : Inv s → ∃ s', add_all s calls = Ok s' ∧ Inv s'.
Proof.
  revert s. induction calls as [|c calls IH]; intros s HI; simpl.
  - by exists s.
  - destruct (add_Inv s (call_doc_id c) (call_text c) (call_payload c) HI)
      as (s1 & Hadd & HI1).
    unfold add_all. simpl. rewrite Hadd. simpl. by apply IH.
Qed.

(** ** The order on strings and on [(score, doc_id)] tuples *)

Lemma ascii_compare_trans (a b c : Ascii.ascii) :
  Ascii.compare a b = Lt → Ascii.compare b c = Lt → Ascii.compare a c = Lt.
Proof.
  unfold Ascii.compare. rewrite !N.compare_lt_iff. apply N.lt_trans.
Qed.

Lemma string_compare_trans (a b c : string) :
  String.compare a b = Lt → String.compare b c = Lt → String.compare a c = Lt.
Proof.
  revert b c. induction a as [|x a IH]; intros [|y b] [|z c]; simpl; try done.
  destruct (Ascii.compare x y) eqn:Exy; [| |done].
  - apply Ascii.compare_eq_iff in Exy as ->.
    destruct (Ascii.compare y z); [apply IH|done|done].
  - intros _. destruct (Ascii.compare y z) eqn:Eyz; [| |done].
    + apply Ascii.compare_eq_iff in Eyz as <-. by rewrite Exy.
    + by rewrite (ascii_compare_trans x y z).
Qed.

Lemma str_lt_trans a b c :
  str_lt a b = true → str_lt b c = true → str_lt a c = true.
Proof.
  unfold str_lt.
  destruct (String.compare a b) eqn:Eab; try done.
  destruct (String.compare b c) eqn:Ebc; try done.
  by rewrite (string_compare_trans a b c).
Qed.

Lemma str_lt_irrefl a : str_lt a a = false.
Proof.
  unfold str_lt. pose proof (String.compare_antisym a a) as H.
  by destruct (String.compare a a).
Qed.

Lemma str_lt_asym a b : str_lt a b = true → str_lt b a = false.
Proof.
  unfold str_lt. rewrite (String.compare_antisym a b).
  by destruct (String.compare b a).
Qed.

Lemma str_lt_total a b : str_lt a b = false → str_lt b a = false → a = b.
Proof.
  unfold str_lt. rewrite (String.compare_antisym a b).
  destruct (String.compare b a) eqn:E; simpl; try done.
  intros _ _. symmetry. by apply String.compare_eq_iff.
Qed.

Lemma tuple_lt_true x y :
  tuple_lt x y = true
  ↔ (x.1 < y.1)%R ∨ (x.1 = y.1 ∧ str_lt x.2 y.2 = true).
Proof.
  unfold tuple_lt. destruct (Req_dec_T x.1 y.1) as [E|E].
  - split; [by right|]. intros [H|[_ H]]; [lra|done].
  - destruct (Rlt_dec x.1 y.1); split; try done; try by left.
    intros [H|[H _]]; done.
Qed.

Lemma tuple_le_iff x y :
  tuple_le x y ↔ (x.1 < y.1)%R ∨ (x.1 = y.1 ∧ str_lt y.2 x.2 = false).
Proof.
  unfold tuple_le, tuple_lt. destruct (Req_dec_T y.1 x.1) as [E|E].
  - split; [by right|]. intros [H|[_ H]]; [lra|done].
  - destruct (Rlt_dec y.1 x.1) as [Hlt|Hge]; split; try done.
    + intros [H|[H _]]; lra.
    + intros _. left. lra.
Qed.

#[local] Instance tuple_le_trans : Transitive tuple_le.
Proof.
  intros x y z. rewrite !tuple_le_iff.
  intros [Hxy|[Hxy Sxy]] [Hyz|[Hyz Syz]]; try (left; lra).
  right. split; [lra|].
  destruct (str_lt z.2 x.2) eqn:Hzx; [|done].
  destruct (str_lt y.2 x.2) eqn:Hyx; [done|].
  destruct (str_lt x.2 y.2) eqn:Hxy'.
  - by rewrite (str_lt_trans z.2 x.2 y.2) in Syz.
  - rewrite (str_lt_total _ _ Hxy' Hyx) in Hzx. by rewrite Hzx in Syz.
Qed.

#[local] Instance tuple_le_antisym : AntiSymm (=) tuple_le.
Proof.
  intros [x1 x2] [y1 y2]. rewrite !tuple_le_iff. simpl.
  intros [H|[H S]] [H'|[H' S']]; try lra.
  f_equal; [done|]. by apply str_lt_total.
Qed.

#[local] Instance tuple_le_total : Total tuple_le.
Proof.
  intros x y. rewrite !tuple_le_iff.
  destruct (Rtotal_order x.1 y.1) as [H|[H|H]]; [by left; left| |right; left; lra].
  destruct (str_lt y.2 x.2) eqn:E.
  - right. right. split; [done|]. by apply str_lt_asym.
  - left. by right.
Qed.

(** ** [list.sort] *)

Lemma insert_sorted_perm x l : insert_sorted x l ≡ₚ x :: l.
Proof.
  induction l as [|y l IH]; simpl; [done|].
  destruct (tuple_lt y x); [|done].
  by rewrite IH, Permutation_swap.
Qed.

Lemma list_sort_perm l : list_sort l ≡ₚ l.
Proof.
  induction l as [|x l IH]; simpl; [done|].
  by rewrite insert_sorted_perm, IH.
Qed.

Lemma insert_sorted_Sorted x l :
  Sorted tuple_le l → Sorted tuple_le (insert_sorted x l).
Proof.
  induction 1 as [|y l Hl IH Hhd]; simpl.
  - by repeat constructor.
  - destruct (tuple_lt y x) eqn:E.
    + constructor; [done|].
      assert (tuple_le y x) as Hyx.
      { destruct (total tuple_le y x) as [?|Hxy]; [done|].
        unfold tuple_le in Hxy. congruence. }
      destruct Hhd as [|z l Hyz]; simpl; [by constructor|].
      destruct (tuple_lt z x); by constructor.
    + constructor; [by constructor|]. by constructor.
Qed.

Lemma list_sort_Sorted l : Sorted tuple_le (list_sort l).
Proof.
  induction l as [|x l IH]; simpl; [constructor|].
  by apply insert_sorted_Sorted.
Qed.

Lemma list_sort_unique l1 l2 : l1 ≡ₚ l2 → list_sort l1 = list_sort l2.
Proof.
  intros Hp. apply (Sorted_unique tuple_le); [apply list_sort_Sorted..|].
  by rewrite !list_sort_perm.
Qed.

Lemma list_sort_reverse_perm l : list_sort_reverse l ≡ₚ l.
Proof.
  unfold list_sort_reverse.
  by rewrite reverse_Permutation, list_sort_perm, reverse_Permutation.
Qed.

Lemma list_sort_reverse_unique l1 l2 :
  l1 ≡ₚ l2 → list_sort_reverse l1 = list_sort_reverse l2.
Proof.
  intros Hp. unfold list_sort_reverse. f_equal.
  apply list_sort_unique. by rewrite !reverse_Permutation.
Qed.

Lemma list_sort_reverse_sorted l :
  StronglySorted (flip tuple_le) (list_sort_reverse l).
Proof.
  unfold list_sort_reverse. apply Sorted_StronglySorted.
  - intros x y z Hxy Hyz. unfold flip in *. by transitivity y.
  - apply Sorted_reverse, list_sort_Sorted.
Qed.

Lemma list_sort_reverse_length l : length (list_sort_reverse l) = length l.
Proof. apply Permutation_length, list_sort_reverse_perm. Qed.

(** ** [_tfidf_vec] *)

Lemma Inv_df_get s term :
  Inv s → df_get (term_df s) term = Z.of_nat (doc_count term (doc_tokens s)).
Proof.
  intros HI. unfold df_get. rewrite (inv_df s HI). unfold df_entry.
  case_decide as E; simpl; [by rewrite E|done].
Qed.

Lemma Inv_df_bounds s term :
  Inv s → 0 ≤ df_get (term_df s) term ≤ N s.
Proof.
  intros HI. rewrite (Inv_df_get s term HI), (inv_N s HI), (inv_size s HI).
  pose proof (doc_count_le term (doc_tokens s)). lia.
Qed.

Lemma idf_ratio_ge_1 (n df : Z) :
  0 < df ≤ n → (1 <= IZR (1 + n) / IZR (1 + df))%R.
Proof.
  intros [Hdf Hn].
  assert (0 < IZR (1 + df))%R as Hpos by (apply IZR_lt; lia).
  assert (IZR (1 + df) <= IZR (1 + n))%R as Hle by (apply IZR_le; lia).
  apply (Rmult_le_reg_r (IZR (1 + df))); [done|].
  unfold Rdiv. rewrite Rmult_assoc, Rinv_l by lra. lra.
Qed.

Lemma ln_nonneg (x : R) : (1 <= x)%R → (0 <= ln x)%R.
Proof.
  intros [Hlt| <-]; [|rewrite ln_1; lra].
  rewrite <-ln_1. left. apply ln_increasing; lra.
Qed.

Lemma idf_ge_1 (n df : Z) : 0 < df ≤ n → (1 <= idf n df)%R.
Proof.
  intros H. unfold idf.
  pose proof (ln_nonneg _ (idf_ratio_ge_1 n df H)). lra.
Qed.

Lemma _tfidf_vec_spec s tf : Inv s → _tfidf_vec s tf = Ok (spec_vec s tf).
Proof.
  intros HI. unfold _tfidf_vec, spec_vec. apply fold_result_Ok.
  intros vec [term f] _. unfold spec_step, spec_weight. simpl.
  pose proof (Inv_df_bounds s term HI) as Hb.
  destruct (Z.eqb_spec (df_get (term_df s) term) 0) as [E|E]; simpl.
  { rewrite bool_decide_eq_false_2; [done|lia]. }
  destruct (Z.eqb_spec (N s) 0) as [E'|E']; simpl.
  { rewrite bool_decide_eq_false_2; [done|lia]. }
  rewrite bool_decide_eq_true_2 by lia.
  unfold int_truediv. destruct (Z.eqb_spec (1 + df_get (term_df s) term) 0); [lia|].
  simpl. unfold math_log.
  pose proof (idf_ratio_ge_1 (N s) (df_get (term_df s) term) ltac:(lia)).
  destruct (Rle_dec _ 0); [lra|]. done.
Qed.

Lemma spec_vec_fold_lookup s (tf : Counter) acc term :
  NoDup tf.*1 →
  dict_get term (fold_left (spec_step s) tf acc)
  = match dict_get term tf with
    | Some f => match spec_weight s term f with
                | Some w => Some w
                | None => dict_get term acc
                end
    | None => dict_get term acc
    end.
Proof.
  revert acc. induction tf as [|[k f] tf IH]; intros acc Hnd; csimpl in *; [done|].
  apply NoDup_cons in Hnd as [Hk Hnd]. rewrite IH by done.
  unfold spec_step. simpl.
  destruct (decide (term = k)) as [->|Hne].
  - apply dict_get_None in Hk. rewrite Hk.
    destruct (spec_weight s k f); [|done]. by rewrite dict_get_set_eq.
  - destruct (spec_weight s k f); [|done].
    by rewrite dict_get_set_ne.
Qed.

Lemma spec_vec_lookup s (tf : Counter) term :
  NoDup tf.*1 →
  dict_get term (spec_vec s tf) = dict_get term tf ≫= spec_weight s term.
Proof.
  intros Hnd. unfold spec_vec. rewrite spec_vec_fold_lookup by done.
  destruct (dict_get term tf) as [f|]; simpl; [|done].
  by destruct (spec_weight s term f).
Qed.

Lemma spec_weight_pos s term f w :
  Inv s → 1 ≤ f → spec_weight s term f = Some w → (1 <= w)%R.
Proof.
  intros HI Hf. unfold spec_weight. case_bool_decide as Hd; [|done].
  intros [= <-].
  pose proof (Inv_df_bounds s term HI) as Hb.
  pose proof (idf_ge_1 (N s) (df_get (term_df s) term) ltac:(lia)) as Hidf.
  assert (1 <= IZR f)%R by (apply IZR_le; lia). nra.
Qed.

Lemma spec_vec_pos s (tf : Counter) :
  Inv s → is_counter tf → Forall (fun kv => 1 <= kv.2)%R (spec_vec s tf).
Proof.
  intros HI [_ Hpos]. unfold spec_vec.
  assert (Forall (fun kv : string * R => 1 <= kv.2)%R []) as Hacc by constructor.
  revert Hacc. generalize (@nil (string * R)).
  induction Hpos as [|[k f] tf Hf Hpos IH]; intros acc Hacc; simpl; [done|].
  apply IH. unfold spec_step. simpl.
  destruct (spec_weight s k f) as [w|] eqn:Hw; [|done].
  apply dict_set_Forall; [done|]. simpl. by eapply spec_weight_pos.
Qed.

(** ** [_cosine] *)

Lemma norm2_nonneg v : (0 <= norm2 v)%R.
Proof.
  induction v as [|kv v IH]; simpl; [lra|]. nra.
Qed.

Lemma norm2_pos v : norm2 v ≠ 0%R → (0 < norm2 v)%R.
Proof.
  intros Hne. destruct (norm2_nonneg v) as [Hlt|Heq]; [done|].
  by rewrite <-Heq in Hne.
Qed.

Lemma fold_squares v acc :
  fold_left (fun na (kv : string * R) => (na + kv.2 * kv.2)%R) v acc
  = (acc + norm2 v)%R.
Proof.
  revert acc. induction v as [|kv v IH]; intros acc; simpl; [lra|].
  rewrite IH. lra.
Qed.

Lemma fold_dot_nonneg (small big : list (string * R)) acc :
  Forall (fun kv => 0 <= kv.2)%R small → Forall (fun kv => 0 <= kv.2)%R big →
  (0 <= acc)%R →
  (0 <= fold_left (fun dot (kv : string * R) =>
                     match dict_get kv.1 big with
                     | Some w => (dot + kv.2 * w)%R
                     | None => dot
                     end) small acc)%R.
Proof.
  intros Hs Hb. revert acc.
  induction Hs as [|[k v] small Hv Hs IH]; intros acc Hacc; simpl; [done|].
  apply IH. destruct (dict_get k big) as [w|] eqn:Hget; [|done].
  apply dict_get_Some_elem in Hget. rewrite Forall_forall in Hb.
  specialize (Hb _ Hget). simpl in *. nra.
Qed.

Lemma fold_dot_disjoint (small big : list (string * R)) acc :
  (∀ k, k ∈ small.*1 → k ∉ big.*1) →
  fold_left (fun dot (kv : string * R) =>
               match dict_get kv.1 big with
               | Some w => (dot + kv.2 * w)%R
               | None => dot
               end) small acc = acc.
Proof.
  revert acc. induction small as [|[k v] small IH]; intros acc Hdis; csimpl in *; [done|].
  assert (dict_get k big = None) as ->.
  { apply dict_get_None, Hdis. left. }
  apply IH. intros k' Hk'. apply Hdis. by right.
Qed.

Lemma sqrt_div_Ok (n dot : R) :
  (0 < n)%R → math_sqrt n ≫= float_truediv dot = Ok (dot / sqrt n)%R.
Proof.
  intros Hn. pose proof (sqrt_lt_R0 n Hn) as Hsqrt.
  unfold math_sqrt. destruct (Rlt_dec n 0); [lra|]. simpl.
  unfold float_truediv. destruct (Req_dec_T (sqrt n) 0); [lra|done].
Qed.

Lemma _cosine_spec (a b : list (string * R)) :
  ∃ r, _cosine a b = Ok r
       ∧ (a = [] ∨ b = [] ∨ norm2 a = 0%R ∨ norm2 b = 0%R → r = 0%R)
       ∧ (Forall (fun kv => 0 <= kv.2)%R a → Forall (fun kv => 0 <= kv.2)%R b →
          (0 <= r)%R)
       ∧ ((∀ k, k ∈ a.*1 → k ∉ b.*1) → r = 0%R).
Proof.
  destruct a as [|x a];
    [exists 0%R; split_and!; [by destruct b|done|intros; lra|done]|].
  destruct b as [|y b];
    [exists 0%R; split_and!; [reflexivity|done|intros; lra|done]|].
  unfold _cosine. rewrite !fold_squares, !Rplus_0_l.
  set (A := x :: a). set (B := y :: b).
  destruct (Req_dec_T (norm2 A) 0) as [HA|HA];
    [exists 0%R; split_and!; [by destruct (_ <? _)%nat|done|intros; lra|done]|].
  destruct (Req_dec_T (norm2 B) 0) as [HB|HB];
    [exists 0%R; split_and!; [by destruct (_ <? _)%nat|done|intros; lra|done]|].
  assert (0 < norm2 A)%R as HA' by (by apply norm2_pos).
  assert (0 < norm2 B)%R as HB' by (by apply norm2_pos).
  assert (0 < norm2 A * norm2 B)%R as Hprod by (by apply Rmult_lt_0_compat).
  pose proof (sqrt_lt_R0 _ Hprod) as Hsqrt.
  destruct (length A <? length B)%nat; rewrite sqrt_div_Ok by done;
    eexists; (split; [done|]).
  all: split_and!.
  all: try (intros [?|[?|[?|?]]]; done).
  - intros HfA HfB. apply Rle_mult_inv_pos; [|done].
    apply fold_dot_nonneg; [done|done|lra].
  - intros Hdis. rewrite fold_dot_disjoint by done. apply Rdiv_0_l.
  - intros HfA HfB. apply Rle_mult_inv_pos; [|done].
    apply fold_dot_nonneg; [done|done|lra].
  - intros Hdis. rewrite fold_dot_disjoint; [apply Rdiv_0_l|].
    intros k Hk Hk'. by apply (Hdis k).
Qed.

(** ** [search] as an expression *)

Lemma _cosine_Ok a b : _cosine a b = Ok (cosine a b).
Proof.
  unfold cosine. by destruct (_cosine_spec a b) as (r & -> & _).
Qed.


Lemma cosine_disjoint a b : (∀ k, k ∈ a.*1 → k ∉ b.*1) → cosine a b = 0%R.
Proof.
  unfold cosine. destruct (_cosine_spec a b) as (r & -> & _ & _ & H). apply H.
Qed.

Lemma slice_to_take {A : Type} (l : list A) (k : Z) :
  ∃ n, slice_to l k = take n l.
Proof. unfold slice_to. destruct (k <? 0); eauto. Qed.

Lemma slice_to_pos {A : Type} (l : list A) (k : Z) :
  0 ≤ k → slice_to l k = take (Z.to_nat k) l.
Proof. intros Hk. unfold slice_to. by destruct (Z.ltb_spec k 0); [lia|]. Qed.

Lemma slice_to_map {A B : Type} (f : A → B) (l : list A) (k : Z) :
  slice_to (map f l) k = map f (slice_to l k).
Proof.
  unfold slice_to. rewrite length_map.
  destruct (k <? 0); symmetry; apply fmap_take.
Qed.

Lemma slice_to_length {A : Type} (l : list A) (k : Z) :
  Z.of_nat (length (slice_to l k))
  = if k <? 0 then Z.max 0 (Z.of_nat (length l) + k)
    else Z.min k (Z.of_nat (length l)).
Proof.
  unfold slice_to. destruct (Z.ltb_spec k 0); rewrite length_take; lia.
Qed.

Lemma slice_to_elem {A : Type} (l : list A) (k : Z) x :
  x ∈ slice_to l k → x ∈ l.
Proof.
  destruct (slice_to_take l k) as [n ->]. apply subseteq_take.
Qed.

Lemma scores_of_ids s query : (scores_of s query).*2 = (doc_tokens s).*1.
Proof.
  unfold scores_of. rewrite <-list_fmap_compose. done.
Qed.

Lemma search_spec s query top_k :
  Inv s → search s query top_k = Ok (slice_to (ranking s query) top_k).
Proof.
  intros HI. unfold search, ranking.
  rewrite _tfidf_vec_spec by done. simpl.
  rewrite (map_result_Ok _
    (fun e => (cosine (query_vec s query) (spec_vec s e.2), e.1))).
  2:{ apply Forall_forall. intros [d tf] _. unfold score_doc.
      rewrite _tfidf_vec_spec by done. simpl. by rewrite _cosine_Ok. }
  simpl. fold (scores_of s query). rewrite slice_to_map.
  apply map_result_Ok, Forall_forall. intros [sc d] Hin.
  apply slice_to_elem in Hin. rewrite list_sort_reverse_perm in Hin.
  apply (list_elem_of_fmap_2 snd) in Hin. rewrite scores_of_ids in Hin.
  simpl in Hin.
  apply (inv_docs s HI) in Hin as [doc Hdoc].
  unfold make_point, point_of. simpl. by rewrite Hdoc.
Qed.

Lemma ranking_length s query : length (ranking s query) = length (doc_tokens s).
Proof.
  unfold ranking, scores_of. by rewrite length_map, list_sort_reverse_length, length_map.
Qed.

Lemma ranking_ids s query :
  map _ScoredPoint.id (ranking s query) ≡ₚ (doc_tokens s).*1.
Proof.
  unfold ranking. rewrite <-(scores_of_ids s query).
  rewrite <-(list_sort_reverse_perm (scores_of s query)) at 2.
  by rewrite map_map.
Qed.

Lemma Counter_fold_get tokens (acc : Counter) term :
  counter_get
    (fold_left (fun c t => dict_set t (counter_get c t + 1) c) tokens acc) term
  = counter_get acc term + Z.of_nat (occurrences term tokens).
Proof.
  revert acc. induction tokens as [|t tokens IH]; intros acc; simpl.
  - unfold occurrences. simpl. lia.
  - rewrite IH. unfold occurrences. rewrite filter_cons.
    unfold counter_get at 1. destruct (decide (t = term)) as [->|Hne].
    + rewrite dict_get_set_eq. simpl. lia.
    + rewrite dict_get_set_ne by done. fold (counter_get acc term). lia.
Qed.

Lemma Counter_of_get tokens term :
  dict_get term (Counter_of tokens)
  = if bool_decide (term ∈ tokens)
    then Some (Z.of_nat (occurrences term tokens)) else None.
Proof.
  case_bool_decide as Hin.
  - pose proof (Counter_fold_get tokens [] term) as Hget.
    fold (Counter_of tokens) in Hget. unfold counter_get in Hget.
    apply Counter_of_keys, dict_get_is_Some in Hin as [f Hf].
    rewrite Hf in *. simpl in Hget. f_equal. lia.
  - apply dict_get_None. by rewrite Counter_of_keys.
Qed.

Lemma spec_vec_keys s (tf : Counter) k :
  NoDup tf.*1 → k ∈ (spec_vec s tf).*1 → k ∈ tf.*1.
Proof.
  intros Hnd. rewrite <-!dict_get_is_Some, spec_vec_lookup by done.
  destruct (dict_get k tf); [done|]. simpl. by intros [? ?].
Qed.

Lemma ranking_elem s query p :
  p ∈ ranking s query →
  ∃ tf, (_ScoredPoint.id p, tf) ∈ doc_tokens s
        ∧ _ScoredPoint.score p = cosine (query_vec s query) (spec_vec s tf).
Proof.
  unfold ranking. intros ([sc d] & -> & Hin)%list_elem_of_fmap_1.
  rewrite list_sort_reverse_perm in Hin. unfold scores_of in Hin.
  apply list_elem_of_fmap_1 in Hin as ([d' tf] & [= -> ->] & Hin).
  by exists tf.
Qed.

Lemma StronglySorted_strict (l : list (R * string)) :
  NoDup l → StronglySorted (flip tuple_le) l →
  StronglySorted (fun x y => tuple_lt y x = true) l.
Proof.
  intros Hnd Hs. induction Hs as [|x l Hs IH Hx]; [constructor|].
  apply NoDup_cons in Hnd as [Hnotin Hnd]. constructor; [by apply IH|].
  rewrite Forall_forall in Hx |- *. intros y Hy.
  specialize (Hx y Hy). unfold flip in Hx.
  destruct (tuple_lt y x) eqn:E; [done|].
  assert (x = y) as -> by (by apply (anti_symm tuple_le)). done.
Qed.

Lemma scores_of_NoDup s query : Inv s → NoDup (scores_of s query).
Proof.
  intros HI. apply (NoDup_fmap_1 snd). rewrite scores_of_ids. apply HI.
Qed.

Lemma ranking_sorted s query :
  Inv s → StronglySorted ranked_before (ranking s query).
Proof.
  intros HI. unfold ranking.
  apply (StronglySorted_fmap _ (fun x y => tuple_lt y x = true)).
  - intros [sx dx] [sy dy] H. apply tuple_lt_true in H. simpl in H.
    unfold ranked_before, point_of. simpl.
    destruct H as [H|[H1 H2]]; [by left|by right].
  - apply StronglySorted_strict; [|apply list_sort_reverse_sorted].
    rewrite list_sort_reverse_perm. by apply scores_of_NoDup.
Qed.

(** The state after any sequence of [add] calls on the empty store. *)
Lemma add_all_init calls : ∃ s, add_all __init__ calls = Ok s ∧ Inv s.
Proof. apply add_all_Inv, Inv_init. Qed.

(** ** What [add] leaves in the store *)

Lemma add_fields s doc_id text p s' :
  add s doc_id text p = Ok s' →
  doc_tokens s' = dict_set doc_id (Counter_of (_tokenize text)) (doc_tokens s)
  ∧ docs s' = <[doc_id := {| payload := dict_or p {["text" := text]} |}]> (docs s).
Proof.
  unfold add. destruct (bool_decide _); [destruct (dict_getitem _ _)|]; simpl;
    by intros [= <-].
Qed.

Lemma add_all_app s l1 l2 :
  add_all s (l1 ++ l2) = add_all s l1 ≫= fun s' => add_all s' l2.
Proof. unfold add_all. apply fold_result_app. Qed.

Lemma add_all_last s0 calls c :
  Inv s0 →
  ∃ s' s, add_all s0 calls = Ok s' ∧ Inv s'
          ∧ add s' (call_doc_id c) (call_text c) (call_payload c) = Ok s
          ∧ Inv s ∧ add_all s0 (calls ++ [c]) = Ok s.
Proof.
  intros HI. destruct (add_all_Inv s0 calls HI) as (s' & Hs' & HI').
  destruct (add_Inv s' (call_doc_id c) (call_text c) (call_payload c) HI')
    as (s & Hs & HIs).
  exists s', s. split_and!; try done.
  rewrite add_all_app, Hs'. simpl. unfold add_all. simpl. by rewrite Hs.
Qed.

Lemma dict_set_comm_perm {V : Type} k1 k2 (v1 v2 : V) (d : list (string * V)) :
  k1 ≠ k2 →
  dict_set k2 v2 (dict_set k1 v1 d) ≡ₚ dict_set k1 v1 (dict_set k2 v2 d).
Proof.
  intros Hne. induction d as [|[k v] d IH]; simpl;
    repeat (case_decide; simplify_eq; simpl); try done.
  - apply Permutation_swap.
  - by rewrite IH.
Qed.

Lemma doc_count_perm term (dt1 dt2 : list (string * Counter)) :
  dt1 ≡ₚ dt2 → doc_count term dt1 = doc_count term dt2.
Proof. intros Hp. unfold doc_count. by rewrite Hp. Qed.

Lemma doc_count_others term d (dt : list (string * Counter)) :
  Forall (fun e => e.1 = d → has_term term e.2 = false) dt →
  doc_count term dt = doc_count term (filter (fun e => e.1 ≠ d) dt).
Proof.
  induction 1 as [|[d' tf] dt Hx _ IH]; [done|].
  rewrite filter_cons. simpl in *. case_decide as Hd.
  - by rewrite !doc_count_cons, IH.
  - by rewrite doc_count_cons, IH, Hx.
Qed.

Lemma spec_vec_ext s1 s2 tf :
  term_df s1 = term_df s2 → N s1 = N s2 → spec_vec s1 tf = spec_vec s2 tf.
Proof.
  intros Hdf HN. unfold spec_vec. generalize (@nil (string * R)).
  induction tf as [|kv tf IH]; intros acc; simpl; [done|].
  rewrite IH. f_equal. unfold spec_step, spec_weight. by rewrite Hdf, HN.
Qed.

Lemma ranking_ext s1 s2 query :
  term_df s1 = term_df s2 → N s1 = N s2 → docs s1 = docs s2 →
  doc_tokens s1 ≡ₚ doc_tokens s2 →
  ranking s1 query = ranking s2 query.
Proof.
  intros Hdf HN Hdocs Hdt. unfold ranking.
  assert (scores_of s1 query ≡ₚ scores_of s2 query) as Hsc.
  { unfold scores_of, query_vec. rewrite Hdt.
    erewrite map_ext; [done|]. intros e. simpl.
    by rewrite !(spec_vec_ext s1 s2). }
  rewrite (list_sort_reverse_unique _ _ Hsc).
  apply map_ext. intros e. unfold point_of. by rewrite Hdocs.
Qed.

Lemma score_no_shared_term s query tf :
  Inv s → is_counter tf →
  (∀ t, t ∈ _tokenize query → t ∉ tf.*1) →
  cosine (query_vec s query) (spec_vec s tf) = 0%R.
Proof.
  intros HI Htf Hdis. apply cosine_disjoint. intros k Hk Hk'.
  apply spec_vec_keys in Hk; [|apply Counter_of_is_counter].
  rewrite Counter_of_keys in Hk.
  apply spec_vec_keys in Hk'; [|apply Htf]. by apply (Hdis k).
Qed.

Lemma tuple_lt_same_score r a b : tuple_lt (r, a) (r, b) = str_lt a b.
Proof. unfold tuple_lt. simpl. by destruct (Req_dec_T r r). Qed.

(** With [top_k = 0], [search] returns the empty list. *)
Lemma search_top_k_zero (calls : list AddCall) (query : string) :
  ∃ s, add_all __init__ calls = Ok s ∧ search s query 0 = Ok [].
Proof.
  destruct (add_all_init calls) as (s & Hs & HI). exists s. split; [done|].
  rewrite search_spec by done. by rewrite slice_to_pos.
Qed.

(** The update scenario on an empty store: after [add("d1", "alpha beta")]
    and [add("d1", "gamma")], only "gamma" is left in the
    document-frequency table, and a search for "alpha" lists "d1" with
    the score 0. *)
Example update_retraction_from_empty :
  ∃ s, add_all __init__ update_calls = Ok s
       ∧ term_df s = {["gamma" := 1]}
       ∧ N s = 1
       ∧ search s "alpha" 3
         = Ok [_ScoredPoint.__init__ "d1" 0%R {["text" := "gamma"]}].
Proof.
  destruct (add_all_init update_calls) as (s & Hs & HI). exists s.
  assert (doc_tokens s = [("d1", [("gamma", 1)])]) as Hdt.
  { transitivity (match add_all __init__ update_calls with
                  | Ok s => doc_tokens s
                  | Raise _ => []
                  end); [by rewrite Hs|by vm_compute]. }
  assert (payload <$> docs s !! "d1" = Some {["text" := "gamma"]}) as Hdoc.
  { transitivity (match add_all __init__ update_calls with
                  | Ok s => payload <$> docs s !! "d1"
                  | Raise _ => None
                  end); [by rewrite Hs|by vm_compute]. }
  split_and!; [done| | |].
  - transitivity (match add_all __init__ update_calls with
                  | Ok s => term_df s
                  | Raise _ => ∅
                  end); [by rewrite Hs|by vm_compute].
  - by rewrite (inv_N s HI), (inv_size s HI), Hdt.
  - rewrite search_spec by done. unfold ranking, scores_of. rewrite Hdt. simpl.
    rewrite score_no_shared_term; try done.
    + unfold list_sort_reverse, slice_to, point_of. simpl. by rewrite Hdoc.
    + eapply (Inv_stored_counter s "d1"); [done|]. by rewrite Hdt.
    + intros t Ht Ht'. vm_compute in Ht, Ht'.
      apply list_elem_of_singleton in Ht, Ht'. congruence.
Qed.

(** * The claims *)

(** C3. After any sequence of [add] calls, a term that is present in the
    document-frequency table has a strictly positive counter, equal to the
    number of stored documents whose term-frequency table contains the
    term (a term that is absent is in none of them), and [N] is the number
    of stored documents. *)
Theorem df_table_counts_stored_documents (calls : list AddCall) (term : string) :
  ∃ s, add_all __init__ calls = Ok s
       ∧ match term_df s !! term with
         | Some c => 0 < c ∧ c = Z.of_nat (doc_count term (doc_tokens s))
         | None => doc_count term (doc_tokens s) = 0%nat
         end
       ∧ N s = Z.of_nat (length (doc_tokens s))
       ∧ N s = Z.of_nat (size (docs s)).
Proof.
  destruct (add_all_init calls) as (s & Hs & HI). exists s.
  split_and!; [done| |by rewrite (inv_N s HI), (inv_size s HI)|apply HI].
  rewrite (inv_df s HI). unfold df_entry. case_decide; [done|]. lia.
Qed.

(** C10. With [top_k > 0], [search] returns exactly [min(top_k, N)]
    results: they are the first [top_k] of the list that [search] returns
    when asked for [N] results, and that list has one entry for each
    stored document, whatever its score. *)
Theorem search_returns_min_top_k_N (calls : list AddCall) (query : string)
    (top_k : Z) :
  0 < top_k →
  ∃ s res all,
    add_all __init__ calls = Ok s
    ∧ search s query top_k = Ok res
    ∧ Z.of_nat (length res) = Z.min top_k (N s)
    ∧ search s query (N s) = Ok all
    ∧ map _ScoredPoint.id all ≡ₚ (doc_tokens s).*1
    ∧ res = take (Z.to_nat top_k) all.
Proof.
  intros Hk. destruct (add_all_init calls) as (s & Hs & HI).
  assert (N s = Z.of_nat (length (ranking s query))) as HN.
  { by rewrite ranking_length, (inv_N s HI), (inv_size s HI). }
  assert (slice_to (ranking s query) (N s) = ranking s query) as Hall.
  { rewrite slice_to_pos by lia. apply take_ge. lia. }
  exists s, (slice_to (ranking s query) top_k), (ranking s query).
  split_and!; [done|by apply search_spec| | | |].
  - rewrite slice_to_length. destruct (Z.ltb_spec top_k 0); lia.
  - rewrite search_spec by done. by rewrite Hall.
  - apply ranking_ids.
  - apply slice_to_pos. lia.
Qed.

(** Three documents stored, two results asked for. *)
Lemma search_returns_min_top_k_N_witness :
  ∃ s res all,
    add_all __init__ three_docs = Ok s
    ∧ search s "fever" 2 = Ok res
    ∧ Z.of_nat (length res) = Z.min 2 (N s)
    ∧ search s "fever" (N s) = Ok all
    ∧ map _ScoredPoint.id all ≡ₚ (doc_tokens s).*1
    ∧ res = take (Z.to_nat 2) all.
Proof. apply (search_returns_min_top_k_N three_docs "fever" 2). lia. Defined.

(** C4. The results of [search] are in descending order of score, and
    of two results with the same score the one with the greater [doc_id]
    comes first: every result is ranked before every later one. *)
Theorem search_results_sorted (calls : list AddCall) (query : string)
    (top_k : Z) :
  ∃ s res, add_all __init__ calls = Ok s
           ∧ search s query top_k = Ok res
           ∧ StronglySorted ranked_before res.
Proof.
  destruct (add_all_init calls) as (s & Hs & HI).
  exists s, (slice_to (ranking s query) top_k).
  split_and!; [done|by apply search_spec|].
  destruct (slice_to_take (ranking s query) top_k) as [n ->].
  apply (StronglySorted_app_1_l _ _ (drop n (ranking s query))).
  rewrite take_drop. by apply ranking_sorted.
Qed.

(** C5. For the tokens of a query, and likewise for the tokens of each
    stored document, [_tfidf_vec] raises nothing (no division by zero) and
    returns a vector in which a term of the tokens with [DF > 0] and
    [N > 0] has the weight [raw_frequency * (ln((1+N)/(1+DF)) + 1)],
    every other term is absent, and no weight is negative. *)
Theorem tfidf_vec_weights (calls : list AddCall) (tokens : list string)
    (term : string) :
  ∃ s vec,
    add_all __init__ calls = Ok s
    ∧ _tfidf_vec s (Counter_of tokens) = Ok vec
    ∧ dict_get term vec
      = (if bool_decide (term ∈ tokens ∧ 0 < df_get (term_df s) term ∧ 0 < N s)
         then Some (IZR (Z.of_nat (occurrences term tokens))
                    * (ln (IZR (1 + N s) / IZR (1 + df_get (term_df s) term)) + 1))%R
         else None)
    ∧ Forall (fun kv => 0 <= kv.2)%R vec
    ∧ Forall (fun e => ∃ text, e.2 = Counter_of (_tokenize text)) (doc_tokens s).
Proof.
  destruct (add_all_init calls) as (s & Hs & HI).
  pose proof (Counter_of_is_counter tokens) as Hc.
  exists s, (spec_vec s (Counter_of tokens)).
  split_and!; [done|by apply _tfidf_vec_spec| | |apply HI].
  - rewrite spec_vec_lookup by apply Hc. rewrite Counter_of_get.
    unfold spec_weight, idf.
    destruct (bool_decide (term ∈ tokens)) eqn:Hin; simpl.
    + apply bool_decide_eq_true in Hin.
      rewrite (bool_decide_ext (0 < df_get (term_df s) term ∧ 0 < N s)
                 (term ∈ tokens ∧ 0 < df_get (term_df s) term ∧ 0 < N s));
        [done|tauto].
    + apply bool_decide_eq_false in Hin.
      rewrite bool_decide_eq_false_2; [done|tauto].
  - eapply Forall_impl; [by apply spec_vec_pos|]. simpl. intros kv H. lra.
Qed.




(** C7. Adding document [a] then [b], with distinct [doc_id]s, leaves the
    same document-frequency table and the same [N] as adding [b] then
    [a], and every [search] returns the same results (so the same
    scores) in both stores. *)
Theorem add_order_independent (calls : list AddCall) (a b : AddCall) :
  call_doc_id a ≠ call_doc_id b →
  ∃ s1 s2,
    add_all __init__ (calls ++ [a; b]) = Ok s1
    ∧ add_all __init__ (calls ++ [b; a]) = Ok s2
    ∧ term_df s1 = term_df s2
    ∧ N s1 = N s2
    ∧ ∀ query top_k,
        ∃ res, search s1 query top_k = Ok res ∧ search s2 query top_k = Ok res.
Proof.
  intros Hne.
  destruct (add_all_last __init__ calls a Inv_init) as (s0 & sa & H0 & I0 & Ha & Ia & _).
  destruct (add_all_last __init__ calls b Inv_init) as (s0' & sb & H0' & _ & Hb & Ib & _).
  assert (s0' = s0) as -> by congruence.
  destruct (add_Inv sa (call_doc_id b) (call_text b) (call_payload b) Ia)
    as (s1 & H1 & I1).
  destruct (add_Inv sb (call_doc_id a) (call_text a) (call_payload a) Ib)
    as (s2 & H2 & I2).
  exists s1, s2.
  destruct (add_fields _ _ _ _ _ Ha) as [Hta Hda].
  destruct (add_fields _ _ _ _ _ Hb) as [Htb Hdb].
  destruct (add_fields _ _ _ _ _ H1) as [Ht1 Hd1].
  destruct (add_fields _ _ _ _ _ H2) as [Ht2 Hd2].
  assert (doc_tokens s1 ≡ₚ doc_tokens s2) as Hdt.
  { rewrite Ht1, Ht2, Hta, Htb. by apply dict_set_comm_perm. }
  assert (docs s1 = docs s2) as Hdocs.
  { rewrite Hd1, Hd2, Hda, Hdb. by apply insert_insert_ne. }
  assert (term_df s1 = term_df s2) as Hdf.
  { apply map_eq. intros term.
    by rewrite (inv_df s1 I1), (inv_df s2 I2), (doc_count_perm _ _ _ Hdt). }
  assert (N s1 = N s2) as HN.
  { by rewrite (inv_N s1 I1), (inv_N s2 I2), Hdocs. }
  split_and!; try done.
  - rewrite add_all_app, H0. simpl. unfold add_all. simpl.
    rewrite Ha. simpl. by rewrite H1.
  - rewrite add_all_app, H0. simpl. unfold add_all. simpl.
    rewrite Hb. simpl. by rewrite H2.
  - intros query top_k. exists (slice_to (ranking s1 query) top_k).
    rewrite !search_spec by done. by rewrite (ranking_ext s1 s2).
Qed.

(** A new document "a" and a new version of "d1", in both orders, after
    three documents. *)
Lemma add_order_independent_witness :
  ∃ s1 s2,
    add_all __init__
      (three_docs ++ [ {| call_doc_id := "a"; call_text := "fever"; call_payload := ∅ |};
                       {| call_doc_id := "d1"; call_text := "flu"; call_payload := ∅ |} ])
    = Ok s1
    ∧ add_all __init__
        (three_docs ++ [ {| call_doc_id := "d1"; call_text := "flu"; call_payload := ∅ |};
                         {| call_doc_id := "a"; call_text := "fever"; call_payload := ∅ |} ])
      = Ok s2
    ∧ term_df s1 = term_df s2
    ∧ N s1 = N s2
    ∧ ∀ query top_k,
        ∃ res, search s1 query top_k = Ok res ∧ search s2 query top_k = Ok res.
Proof.
  apply (add_order_independent three_docs
           {| call_doc_id := "a"; call_text := "fever"; call_payload := ∅ |}
           {| call_doc_id := "d1"; call_text := "flu"; call_payload := ∅ |}).
  simpl. discriminate.
Defined.

(** C2, as amended.  After [add("d1", "alpha beta")] and then
    [add("d1", "gamma")], whatever was stored before, a search for "alpha"
    gives "d1" the score 0 wherever it lists it, and it does list it (with
    the score 0) when asked for [N] results, since [search] drops no
    document for its score; the stored term frequencies of "d1" are those
    of "gamma" alone, and the document-frequency entry of "alpha" counts
    exactly the other stored documents that contain it: it is absent when
    there is none. *)
Theorem update_retracts_old_terms (calls : list AddCall)
    (p1 p2 : gmap string string) (top_k : Z) :
  ∃ s res all,
    add_all __init__
      (calls ++ [ {| call_doc_id := "d1"; call_text := "alpha beta"; call_payload := p1 |};
                  {| call_doc_id := "d1"; call_text := "gamma"; call_payload := p2 |} ])
    = Ok s
    ∧ search s "alpha" top_k = Ok res
    ∧ Forall (fun p => _ScoredPoint.id p = "d1" → _ScoredPoint.score p = 0%R) res
    ∧ search s "alpha" (N s) = Ok all
    ∧ Exists (fun p => _ScoredPoint.id p = "d1" ∧ _ScoredPoint.score p = 0%R) all
    ∧ dict_get "d1" (doc_tokens s) = Some [("gamma", 1)]
    ∧ term_df s !! "alpha"
      = match doc_count "alpha" (filter (fun e => e.1 ≠ "d1") (doc_tokens s)) with
        | O => None
        | S n => Some (Z.of_nat (S n))
        end.
Proof.
  set (c1 := {| call_doc_id := "d1"; call_text := "alpha beta"; call_payload := p1 |}).
  set (c2 := {| call_doc_id := "d1"; call_text := "gamma"; call_payload := p2 |}).
  destruct (add_all_last __init__ (calls ++ [c1]) c2 Inv_init)
    as (s' & s & Hs' & HI' & Hadd & HI & Hs).
  rewrite <-app_assoc in Hs. simpl in Hs.
  destruct (add_fields _ _ _ _ _ Hadd) as [Hdt _].
  assert (dict_get "d1" (doc_tokens s) = Some [("gamma", 1)]) as Hd1.
  { rewrite Hdt. apply dict_get_set_eq. }
  assert (∀ p, p ∈ ranking s "alpha" → _ScoredPoint.id p = "d1" →
               _ScoredPoint.score p = 0%R) as Hzero.
  { intros p Hp Hid. apply ranking_elem in Hp as (tf & Hin & ->).
    apply (dict_get_elem _ _ _ (inv_nodup s HI)) in Hin.
    rewrite Hid, Hd1 in Hin. injection Hin as <-.
    apply score_no_shared_term; [done|by eapply Inv_stored_counter|].
    intros t Ht Ht'. vm_compute in Ht, Ht'.
    apply list_elem_of_singleton in Ht, Ht'. congruence. }
  assert (slice_to (ranking s "alpha") (N s) = ranking s "alpha") as Hall.
  { rewrite slice_to_pos by (rewrite (inv_N s HI); lia). apply take_ge.
    rewrite ranking_length, (inv_N s HI), (inv_size s HI). lia. }
  exists s, (slice_to (ranking s "alpha") top_k), (ranking s "alpha").
  split_and!; [done|by apply search_spec| | | |done|].
  - apply Forall_forall. intros p Hp%slice_to_elem. by apply Hzero.
  - rewrite search_spec by done. by rewrite Hall.
  - assert ("d1" ∈ map _ScoredPoint.id (ranking s "alpha")) as Hin.
    { rewrite ranking_ids. apply dict_get_is_Some. by rewrite Hd1. }
    apply list_elem_of_fmap_1 in Hin as (q & Hid & Hq).
    apply Exists_exists. exists q. split_and!; [done|done|].
    by apply Hzero.
  - rewrite (inv_df s HI), (doc_count_others "alpha" "d1").
    + unfold df_entry. by destruct (doc_count _ _).
    + apply Forall_forall. intros [d tf] Hin Hd. simpl in *. subst d.
      apply (dict_get_elem _ _ _ (inv_nodup s HI)) in Hin.
      rewrite Hd1 in Hin. by injection Hin as <-.
Qed.

(** C2 as it was stated fails: on an empty store, after the two [add]
    calls, the search for "alpha" does return a result for "d1". *)
Lemma update_search_still_returns_d1 :
  ∃ s res, add_all __init__ update_calls = Ok s
           ∧ search s "alpha" 3 = Ok res
           ∧ "d1" ∈ map _ScoredPoint.id res.
Proof.
  destruct update_retraction_from_empty as (s & Hs & _ & _ & Hres).
  exists s. eexists. split_and!; [done|done|]. simpl. left.
Qed.

(** C1. With a negative [top_k] the claim fails: with two documents stored,
    [search("gamma", -1)] returns one result, not the empty list. *)
Theorem search_negative_top_k_returns_results :
  ∃ s, add_all __init__ two_docs = Ok s
       ∧ search s "gamma" (-1)
         = Ok [_ScoredPoint.__init__ "d2" 0%R {["text" := "beta"]}].
Proof.
  destruct (add_all_init two_docs) as (s & Hs & HI). exists s. split; [done|].
  assert (doc_tokens s = [("d1", [("alpha", 1)]); ("d2", [("beta", 1)])]) as Hdt.
  { transitivity (match add_all __init__ two_docs with
                  | Ok s => doc_tokens s
                  | Raise _ => []
                  end); [by rewrite Hs|by vm_compute]. }
  assert (payload <$> docs s !! "d2" = Some {["text" := "beta"]}) as Hdoc.
  { transitivity (match add_all __init__ two_docs with
                  | Ok s => payload <$> docs s !! "d2"
                  | Raise _ => None
                  end); [by rewrite Hs|by vm_compute]. }
  rewrite search_spec by done. unfold ranking, scores_of. rewrite Hdt. simpl.
  rewrite !score_no_shared_term; try done.
  - unfold list_sort_reverse. cbn [reverse rev_append list_sort insert_sorted].
    rewrite tuple_lt_same_score.
    replace (str_lt "d1" "d2") with true by (by vm_compute).
    cbn [reverse rev_append]. unfold slice_to, point_of. simpl.
    by rewrite Hdoc.
  - eapply (Inv_stored_counter s "d2"); [done|]. by rewrite Hdt.
  - intros t Ht Ht'. vm_compute in Ht, Ht'.
    apply list_elem_of_singleton in Ht, Ht'. congruence.
  - eapply (Inv_stored_counter s "d1"); [done|]. by rewrite Hdt.
  - intros t Ht Ht'. vm_compute in Ht, Ht'.
    apply list_elem_of_singleton in Ht, Ht'. congruence.
Qed.

(** ** Sessions on a [VectorStore] in keyword mode *)

Section Lexical.
Context {QdrantClient : Type}.
Context (new_client : Result QdrantClient).
Context (client_upsert :
  QdrantClient → string → string → gmap string string → Result QdrantClient).
Context (client_search :
  QdrantClient → string → Z → Result (list _ScoredPoint.t)).

Local Abbreviation session :=
  (VectorStore.session client_upsert client_search).
Local Abbreviation keywords := (@VectorStore.keywords QdrantClient).

Lemma session_app vs l1 l2 :
  session vs (l1 ++ l2)
  = r1 ← session vs l1; r2 ← session r1.1 l2; Ok (r2.1, r1.2 ++ r2.2).
Proof.
  revert vs. induction l1 as [|c l1 IH]; intros vs; simpl.
  - destruct (session vs l2) as [[vs' outs]|e]; by simpl.
  - destruct (VectorStore.step _ _ vs c) as [[vs1 out]|e]; simpl; [|done].
    rewrite IH. destruct (session vs1 l1) as [[vs2 outs]|e]; simpl; [|done].
    by destruct (session vs2 l2) as [[vs3 outs']|e].
Qed.

Lemma session_keywords kw calls :
  Inv kw →
  ∃ kw' outs, session (keywords kw) calls = Ok (keywords kw', outs) ∧ Inv kw'.
Proof.
  revert kw. induction calls as [|c calls IH]; intros kw HI; simpl.
  - by exists kw, [].
  - destruct c as [doc_id text metadata|text top_k]; simpl.
    + destruct (add_Inv kw doc_id text (VectorStore.text_and text metadata) HI)
        as (kw1 & Hadd & HI1).
      rewrite Hadd. simpl.
      destruct (IH kw1 HI1) as (kw' & outs & -> & HI').
      simpl. by exists kw', (None :: outs).
    + rewrite search_spec by done. simpl.
      destruct (IH kw HI) as (kw' & outs & -> & HI').
      simpl. by eexists kw', (_ :: outs).
Qed.

(** C9. In keyword mode, after [add_document(doc_id, text, metadata)] the
    payload stored for [doc_id] is [metadata] with the key "text" set to
    [text], also when [metadata] has a "text" key of its own; every result
    that [query] returns for [doc_id] carries this payload. *)
Theorem add_document_payload_text (calls : list VectorStore.Call)
    (doc_id text : string) (metadata : gmap string string) :
  ∃ vs0 kw outs,
    VectorStore.__init__ new_client None = Ok vs0
    ∧ session vs0 (calls ++ [VectorStore.AddDocument doc_id text metadata])
      = Ok (keywords kw, outs)
    ∧ payload <$> docs kw !! doc_id = Some (<["text" := text]> metadata)
    ∧ <["text" := text]> metadata !! "text" = Some text
    ∧ ∀ query top_k,
        ∃ res, VectorStore.query client_search (keywords kw) query top_k
               = Ok res
               ∧ Forall (fun p => _ScoredPoint.id p = doc_id →
                                  _ScoredPoint.payload p
                                  = <["text" := text]> metadata) res.
Proof.
  destruct (session_keywords __init__ calls Inv_init) as (kw0 & outs & Hs & HI0).
  destruct (add_Inv kw0 doc_id text (VectorStore.text_and text metadata) HI0)
    as (kw & Hadd & HI).
  destruct (add_fields _ _ _ _ _ Hadd) as [_ Hdocs].
  assert (payload <$> docs kw !! doc_id = Some (<["text" := text]> metadata))
    as Hp.
  { rewrite Hdocs, lookup_insert_eq. simpl. f_equal.
    unfold dict_or, VectorStore.text_and, dict_or. apply map_eq. intros k.
    destruct (decide (k = "text")) as [->|Hne].
    - by rewrite lookup_insert_eq, lookup_union_l', lookup_singleton_eq.
    - rewrite lookup_insert_ne by done.
      rewrite lookup_union_r by (by rewrite lookup_singleton_ne).
      destruct (metadata !! k) eqn:E.
      + by rewrite lookup_union_l', E.
      + by rewrite lookup_union_r, lookup_singleton_ne. }
  exists (keywords __init__), kw, (outs ++ [None]).
  split_and!; [done| |done|apply lookup_insert_eq|].
  - rewrite session_app, Hs. simpl. by rewrite Hadd.
  - intros query top_k. exists (slice_to (ranking kw query) top_k).
    split; [by apply search_spec|].
    apply Forall_forall. intros p Hp'%slice_to_elem Hid.
    unfold ranking in Hp'. apply list_elem_of_fmap_1 in Hp' as (e & -> & _).
    unfold point_of in *. simpl in *. by rewrite Hid, Hp.
Qed.

End Lexical.

(** * Further properties *)

(** ** The tokenizer *)

Lemma lower_char_word c : is_word_char (lower_char c) = is_word_char c.
Proof. by destruct c as [[] [] [] [] [] [] [] []]. Qed.

Lemma lower_char_idemp c : lower_char (lower_char c) = lower_char c.
Proof. by destruct c as [[] [] [] [] [] [] [] []]. Qed.

Lemma lower_idemp s : lower (lower s) = lower s.
Proof.
  induction s as [|c s IH]; simpl; [done|]. by rewrite lower_char_idemp, IH.
Qed.

Lemma lower_app s1 s2 : lower (s1 +:+ s2) = lower s1 +:+ lower s2.
Proof. induction s1 as [|c s1 IH]; simpl; [done|]. by rewrite IH. Qed.

Lemma all_chars_app P s1 s2 :
  all_chars P (s1 +:+ s2) = all_chars P s1 && all_chars P s2.
Proof.
  induction s1 as [|c s1 IH]; simpl; [done|]. by rewrite IH, andb_assoc.
Qed.

Lemma all_chars_lower s :
  all_chars is_word_char (lower s) = all_chars is_word_char s.
Proof.
  induction s as [|c s IH]; simpl; [done|]. by rewrite lower_char_word, IH.
Qed.

Lemma flush_lower cur : flush (lower cur) = map lower (flush cur).
Proof. by destruct cur. Qed.

Lemma findall_from_lower cur text :
  findall_from (lower cur) (lower text) = map lower (findall_from cur text).
Proof.
  revert cur. induction text as [|c text IH]; intros cur; simpl.
  - apply flush_lower.
  - rewrite lower_char_word. destruct (is_word_char c).
    + rewrite <-IH. by rewrite lower_app.
    + rewrite map_app, <-IH, flush_lower. done.
Qed.

Lemma _tokenize_lower text : _tokenize (lower text) = _tokenize text.
Proof.
  unfold _tokenize, _token_re_findall.
  pose proof (findall_from_lower EmptyString text) as H. simpl in H.
  rewrite H, map_map. apply map_ext. intros t. apply lower_idemp.
Qed.

Lemma findall_from_shape cur text :
  all_chars is_word_char cur = true →
  Forall (fun t => t ≠ EmptyString ∧ all_chars is_word_char t = true)
         (findall_from cur text).
Proof.
  revert cur. induction text as [|c text IH]; intros cur Hcur; simpl.
  - destruct cur; by repeat constructor.
  - destruct (is_word_char c) eqn:Hc.
    + apply IH. rewrite all_chars_app, Hcur. simpl. by rewrite Hc.
    + apply Forall_app. split; [|by apply IH].
      destruct cur; by repeat constructor.
Qed.

Lemma findall_from_sep cur a c b :
  is_word_char c = false →
  findall_from cur (a +:+ String c b)
  = findall_from cur a ++ findall_from EmptyString b.
Proof.
  intros Hc. revert cur. induction a as [|x a IH]; intros cur; simpl.
  - by rewrite Hc.
  - destruct (is_word_char x); [apply IH|]. by rewrite IH, app_assoc.
Qed.

(** X1. Every token is a non-empty run of word characters in lower
    case. *)
Theorem tokens_are_lowercase_words (text : string) :
  Forall (fun t => t ≠ EmptyString
                   ∧ all_chars is_word_char t = true
                   ∧ lower t = t) (_tokenize text).
Proof.
  unfold _tokenize, _token_re_findall. apply Forall_fmap.
  eapply Forall_impl; [by apply (findall_from_shape EmptyString text)|].
  simpl. intros t [Hne Hw]. split_and!.
  - by destruct t.
  - by rewrite all_chars_lower.
  - apply lower_idemp.
Qed.

(** X2. A character that is not a word character separates tokens: the
    tokens of two texts joined by it are the tokens of the first followed
    by the tokens of the second. *)
Theorem tokenize_separator (a b : string) (c : Ascii.ascii) :
  is_word_char c = false →
  _tokenize (a +:+ String c b) = _tokenize a ++ _tokenize b.
Proof.
  intros Hc. unfold _tokenize, _token_re_findall.
  by rewrite findall_from_sep, map_app.
Qed.

(** The texts "Fever" and "cough" joined by a comma (code point 44). *)
Lemma tokenize_separator_witness :
  _tokenize ("Fever" +:+ String (Ascii.ascii_of_nat 44) "cough")
  = _tokenize "Fever" ++ _tokenize "cough".
Proof. apply (tokenize_separator "Fever" "cough" (Ascii.ascii_of_nat 44)). reflexivity. Defined.

(** X3. For queries of code points below U+0100 (the texts of this
    model, on which [lower] is [str.lower]), [search] does not see letter
    case: two queries that are equal once lowered get the same results
    from every store built by [add] calls. *)
Theorem search_ignores_query_case (calls : list AddCall) (q1 q2 : string)
    (top_k : Z) :
  lower q1 = lower q2 →
  ∃ s res, add_all __init__ calls = Ok s
           ∧ search s q1 top_k = Ok res
           ∧ search s q2 top_k = Ok res.
Proof.
  intros Hq. destruct (add_all_init calls) as (s & Hs & HI).
  exists s, (slice_to (ranking s q1) top_k).
  split_and!; [done|by apply search_spec|].
  rewrite <-(search_spec s q1 top_k HI). unfold search.
  by rewrite <-(_tokenize_lower q1), <-(_tokenize_lower q2), Hq.
Qed.

(** Three documents stored; the query in two spellings. *)
Lemma search_ignores_query_case_witness :
  ∃ s res, add_all __init__ three_docs = Ok s
           ∧ search s "Fever COUGH" 3 = Ok res
           ∧ search s "fEVER cough" 3 = Ok res.
Proof.
  apply (search_ignores_query_case three_docs "Fever COUGH" "fEVER cough" 3).
  reflexivity.
Defined.

(** ** What [add] changes and what it keeps *)

Lemma dict_set_set_eq {V : Type} k (v1 v2 : V) (d : list (string * V)) :
  dict_set k v2 (dict_set k v1 d) = dict_set k v2 d.
Proof.
  induction d as [|[k' v'] d IH]; simpl.
  - by rewrite decide_True.
  - destruct (decide (k = k')) as [->|Hne]; simpl.
    + by rewrite decide_True.
    + by rewrite decide_False, IH.
Qed.

Lemma dict_set_filter_ne {V : Type} k (v : V) (d : list (string * V)) :
  filter (fun e => e.1 ≠ k) (dict_set k v d) = filter (fun e => e.1 ≠ k) d.
Proof.
  induction d as [|[k' v'] d IH]; simpl.
  - rewrite filter_cons. simpl. by rewrite decide_False by (by intros ?).
  - destruct (decide (k = k')) as [->|Hne].
    + rewrite !filter_cons. simpl. by rewrite !decide_False by (by intros ?).
    + by rewrite !filter_cons, IH.
Qed.

(** A store built by [add] is determined by [docs] and [doc_tokens]. *)
Lemma store_ext s1 s2 :
  Inv s1 → Inv s2 → doc_tokens s1 = doc_tokens s2 → docs s1 = docs s2 →
  s1 = s2.
Proof.
  intros I1 I2 Hdt Hdocs.
  assert (term_df s1 = term_df s2) as Hdf.
  { apply map_eq. intros term. by rewrite (inv_df s1 I1), (inv_df s2 I2), Hdt. }
  assert (N s1 = N s2) as HN by (by rewrite (inv_N s1 I1), (inv_N s2 I2), Hdocs).
  destruct s1, s2. simpl in *. by subst.
Qed.

(** X4. The last [add] for a [doc_id] wins: adding a document and then
    adding a new version under the same [doc_id] leaves exactly the store
    that adding the new version alone leaves. *)
Theorem add_overwrites_previous_version (calls : list AddCall)
    (doc_id text1 text2 : string) (p1 p2 : gmap string string) :
  ∃ s,
    add_all __init__
      (calls ++ [ {| call_doc_id := doc_id; call_text := text1; call_payload := p1 |};
                  {| call_doc_id := doc_id; call_text := text2; call_payload := p2 |} ])
    = Ok s
    ∧ add_all __init__
        (calls ++ [ {| call_doc_id := doc_id; call_text := text2; call_payload := p2 |} ])
      = Ok s.
Proof.
  set (c1 := {| call_doc_id := doc_id; call_text := text1; call_payload := p1 |}).
  set (c2 := {| call_doc_id := doc_id; call_text := text2; call_payload := p2 |}).
  destruct (add_all_last __init__ calls c1 Inv_init)
    as (s0 & sa & H0 & I0 & Ha & Ia & _).
  subst c1 c2. simpl in Ha.
  destruct (add_Inv sa doc_id text2 p2 Ia) as (s1 & H1 & I1).
  destruct (add_Inv s0 doc_id text2 p2 I0) as (s2 & H2 & I2).
  destruct (add_fields _ _ _ _ _ Ha) as [Hta Hda].
  destruct (add_fields _ _ _ _ _ H1) as [Ht1 Hd1].
  destruct (add_fields _ _ _ _ _ H2) as [Ht2 Hd2].
  assert (s1 = s2) as Heq.
  { apply store_ext; [done|done| |].
    - rewrite Ht1, Ht2, Hta. simpl. apply dict_set_set_eq.
    - rewrite Hd1, Hd2, Hda. simpl. apply insert_insert_eq. }
  exists s1. split.
  - rewrite add_all_app, H0. simpl. unfold add_all. simpl.
    rewrite Ha. simpl. by rewrite H1.
  - rewrite add_all_app, H0. simpl. unfold add_all. simpl.
    rewrite H2. simpl. by rewrite Heq.
Qed.

(** X5. [add] touches one document only: the payloads and the
    term-frequency tables of the other documents, and their order, stay
    as they were, and [N] grows by one for a new [doc_id] and stays for a
    stored one. *)
Theorem add_touches_one_document (calls : list AddCall) (c : AddCall) :
  ∃ s s',
    add_all __init__ calls = Ok s
    ∧ add_all __init__ (calls ++ [c]) = Ok s'
    ∧ delete (call_doc_id c) (docs s') = delete (call_doc_id c) (docs s)
    ∧ filter (fun e => e.1 ≠ call_doc_id c) (doc_tokens s')
      = filter (fun e => e.1 ≠ call_doc_id c) (doc_tokens s)
    ∧ N s' = (if bool_decide (call_doc_id c ∈ (doc_tokens s).*1)
              then N s else N s + 1).
Proof.
  destruct (add_all_last __init__ calls c Inv_init)
    as (s & s' & Hs & HI & Hadd & HI' & Hs').
  destruct (add_fields _ _ _ _ _ Hadd) as [Hdt Hdocs].
  exists s, s'. split_and!; [done|done| | |].
  - rewrite Hdocs. apply delete_insert_eq.
  - rewrite Hdt. apply dict_set_filter_ne.
  - rewrite (inv_N s' HI'), (inv_size s' HI'), (inv_N s HI), (inv_size s HI).
    rewrite Hdt, dict_set_length.
    case_bool_decide as Hin.
    + apply dict_get_is_Some in Hin as [tf ->]. done.
    + apply dict_get_None in Hin. rewrite Hin. lia.
Qed.

(** A store in which every stored document has the text of its payload
    indexed. *)
Lemma consistent_add s doc_id text p s' :
  (∀ d, match docs s !! d with
        | Some doc => ∃ t, payload doc !! "text" = Some t
                           ∧ dict_get d (doc_tokens s) = Some (Counter_of (_tokenize t))
        | None => True
        end) →
  add s doc_id text p = Ok s' →
  ∀ d, match docs s' !! d with
       | Some doc => ∃ t, payload doc !! "text" = Some t
                          ∧ dict_get d (doc_tokens s') = Some (Counter_of (_tokenize t))
       | None => True
       end.
Proof.
  intros Hc Hadd d. destruct (add_fields _ _ _ _ _ Hadd) as [Hdt Hdocs].
  rewrite Hdocs, Hdt. destruct (decide (doc_id = d)) as [->|Hne].
  - rewrite lookup_insert_eq. exists text. simpl. split.
    + unfold dict_or. by rewrite lookup_union_l', lookup_singleton_eq.
    + apply dict_get_set_eq.
  - rewrite lookup_insert_ne, dict_get_set_ne by done. apply Hc.
Qed.

(** X6. Index and payload stay in step: for every stored document the
    payload has a "text" entry, and the stored term-frequency table is the
    [Counter] of the tokens of that text; a [doc_id] that is not stored
    has no table. *)
Theorem index_matches_payload_text (calls : list AddCall) (d : string) :
  ∃ s, add_all __init__ calls = Ok s
       ∧ match docs s !! d with
         | Some doc =>
             ∃ t, payload doc !! "text" = Some t
                  ∧ dict_get d (doc_tokens s) = Some (Counter_of (_tokenize t))
         | None => dict_get d (doc_tokens s) = None
         end.
Proof.
  assert (∃ s, add_all __init__ calls = Ok s ∧ Inv s
               ∧ ∀ d, match docs s !! d with
                      | Some doc =>
                          ∃ t, payload doc !! "text" = Some t
                               ∧ dict_get d (doc_tokens s)
                                 = Some (Counter_of (_tokenize t))
                      | None => True
                      end) as (s & Hs & HI & Hc).
  { induction calls as [|c calls IH] using rev_ind.
    - exists __init__. split_and!; [done|apply Inv_init|].
      intros d'. simpl. by rewrite lookup_empty.
    - destruct IH as (s0 & H0 & I0 & C0).
      destruct (add_Inv s0 (call_doc_id c) (call_text c) (call_payload c) I0)
        as (s1 & H1 & I1).
      exists s1. split_and!; [|done|by eapply consistent_add].
      rewrite add_all_app, H0. simpl. unfold add_all. simpl. by rewrite H1. }
  exists s. split; [done|]. specialize (Hc d).
  destruct (docs s !! d) as [doc|] eqn:Hd; [done|].
  apply dict_get_None. rewrite <-(inv_docs s HI), Hd. by intros [? ?].
Qed.

(** ** The value of [_cosine] *)

Lemma cosine_eq (a b : list (string * R)) :
  a ≠ [] → b ≠ [] → norm2 a ≠ 0%R → norm2 b ≠ 0%R →
  cosine a b = (dot_of a b / sqrt (norm2 a * norm2 b))%R.
Proof.
  intros Ha Hb Hna Hnb. unfold cosine, _cosine, dot_of.
  destruct a as [|x a]; [done|]. destruct b as [|y b]; [done|].
  rewrite !fold_squares, !Rplus_0_l.
  destruct (Req_dec_T (norm2 (x :: a)) 0) as [?|_]; [done|].
  destruct (Req_dec_T (norm2 (y :: b)) 0) as [?|_]; [done|].
  assert (0 < norm2 (x :: a) * norm2 (y :: b))%R as Hprod.
  { apply Rmult_lt_0_compat; by apply norm2_pos. }
  by destruct (length (x :: a) <? length (y :: b))%nat;
    rewrite sqrt_div_Ok by done.
Qed.

Lemma fold_dot_sum (small big : list (string * R)) acc :
  fold_left (fun dot (kv : string * R) =>
               match dict_get kv.1 big with
               | Some w => (dot + kv.2 * w)%R
               | None => dot
               end) small acc
  = (acc + dot_sum small big)%R.
Proof.
  revert acc. induction small as [|[k v] small IH]; intros acc; simpl; [lra|].
  rewrite IH. unfold weight_in. simpl.
  destruct (dict_get k big); simpl; lra.
Qed.

Lemma dot_of_sum (a b : list (string * R)) :
  dot_of a b
  = if (length a <? length b)%nat then dot_sum a b else dot_sum b a.
Proof.
  unfold dot_of. destruct (length a <? length b)%nat;
    rewrite fold_dot_sum; lra.
Qed.

Lemma weight_in_pos big k :
  Forall (fun kv => 0 < kv.2)%R big → k ∈ big.*1 → (0 < weight_in big k)%R.
Proof.
  intros Hpos [w Hw]%dict_get_is_Some. unfold weight_in. rewrite Hw. simpl.
  apply dict_get_Some_elem in Hw. rewrite Forall_forall in Hpos.
  apply (Hpos _ Hw).
Qed.

Lemma weight_in_nonneg big k :
  Forall (fun kv => 0 < kv.2)%R big → (0 <= weight_in big k)%R.
Proof.
  intros Hpos. destruct (dict_get k big) as [w|] eqn:Hw.
  - left. apply weight_in_pos; [done|]. apply dict_get_is_Some. by rewrite Hw.
  - unfold weight_in. rewrite Hw. simpl. lra.
Qed.

Lemma dot_sum_nonneg small big :
  Forall (fun kv => 0 < kv.2)%R small → Forall (fun kv => 0 < kv.2)%R big →
  (0 <= dot_sum small big)%R.
Proof.
  intros Hs Hb. induction Hs as [|[k v] small Hv Hs IH]; simpl; [lra|].
  pose proof (weight_in_nonneg big k Hb). simpl in Hv. nra.
Qed.

Lemma dot_sum_pos small big k :
  Forall (fun kv => 0 < kv.2)%R small → Forall (fun kv => 0 < kv.2)%R big →
  k ∈ small.*1 → k ∈ big.*1 → (0 < dot_sum small big)%R.
Proof.
  intros Hs Hb Hk Hk'. induction Hs as [|[k' v] small Hv Hs IH]; csimpl in *.
  - by apply elem_of_nil in Hk.
  - pose proof (dot_sum_nonneg small big Hs Hb).
    apply elem_of_cons in Hk as [->|Hk].
    + pose proof (weight_in_pos big k' Hb Hk'). nra.
    + pose proof (weight_in_nonneg big k' Hb). specialize (IH Hk). nra.
Qed.

Lemma norm2_pos_weights v :
  v ≠ [] → Forall (fun kv => 0 < kv.2)%R v → (0 < norm2 v)%R.
Proof.
  destruct v as [|[k w] v]; [done|]. intros _ [Hw _]%Forall_cons. simpl in *.
  pose proof (norm2_nonneg v). nra.
Qed.

(** Two vectors of positive weights with a common key have a positive
    cosine. *)
Lemma cosine_pos (a b : list (string * R)) k :
  Forall (fun kv => 0 < kv.2)%R a → Forall (fun kv => 0 < kv.2)%R b →
  k ∈ a.*1 → k ∈ b.*1 → (0 < cosine a b)%R.
Proof.
  intros Ha Hb Hka Hkb.
  assert (a ≠ []) as Hane by (intros ->; by apply elem_of_nil in Hka).
  assert (b ≠ []) as Hbne by (intros ->; by apply elem_of_nil in Hkb).
  pose proof (norm2_pos_weights a Hane Ha) as Hna.
  pose proof (norm2_pos_weights b Hbne Hb) as Hnb.
  rewrite cosine_eq by (done || lra).
  apply Rdiv_lt_0_compat.
  - rewrite dot_of_sum. destruct (length a <? length b)%nat;
      by eapply dot_sum_pos.
  - apply sqrt_lt_R0. by apply Rmult_lt_0_compat.
Qed.

Lemma dot_sum_self v : NoDup v.*1 → dot_sum v v = norm2 v.
Proof.
  intros Hnd. unfold dot_sum.
  assert (∀ l, l ⊆ v →
    fold_right (fun kv r => (kv.2 * weight_in v kv.1 + r)%R) 0%R l = norm2 l)
    as Hgen.
  { induction l as [|[k w] l IH]; intros Hsub; simpl; [done|].
    rewrite IH by set_solver. unfold weight_in.
    rewrite (dict_get_elem k w v Hnd) by set_solver. done. }
  by apply Hgen.
Qed.

(** The cosine of a vector of positive weights with itself is 1. *)
Lemma cosine_self v :
  v ≠ [] → NoDup v.*1 → Forall (fun kv => 0 < kv.2)%R v → cosine v v = 1%R.
Proof.
  intros Hne Hnd Hpos. pose proof (norm2_pos_weights v Hne Hpos) as Hn.
  rewrite cosine_eq by (done || lra).
  rewrite dot_of_sum, Nat.ltb_irrefl, dot_sum_self by done.
  rewrite sqrt_square by lra. apply Rdiv_diag. lra.
Qed.

(** ** Scores and ranking *)

Lemma spec_vec_NoDup s tf : NoDup (spec_vec s tf).*1.
Proof.
  unfold spec_vec.
  assert (NoDup (@nil (string * R)).*1) as Hacc by apply NoDup_nil_2.
  revert Hacc. generalize (@nil (string * R)).
  induction tf as [|kv tf IH]; intros acc Hacc; simpl; [done|].
  apply IH. unfold spec_step. destruct (spec_weight s kv.1 kv.2); [|done].
  by apply dict_set_NoDup.
Qed.

Lemma spec_vec_positive s tf :
  Inv s → is_counter tf → Forall (fun kv => 0 < kv.2)%R (spec_vec s tf).
Proof.
  intros HI Htf. eapply Forall_impl; [by apply spec_vec_pos|].
  simpl. intros kv H. lra.
Qed.

Lemma doc_count_pos term d tf (dt : list (string * Counter)) :
  dict_get d dt = Some tf → term ∈ tf.*1 → (0 < doc_count term dt)%nat.
Proof.
  intros Hget Hin. apply has_term_true in Hin.
  induction dt as [|[d' tf'] dt IH]; simpl in *; [done|].
  rewrite doc_count_cons. destruct (decide (d = d')) as [->|Hne].
  - injection Hget as ->. rewrite Hin. simpl. lia.
  - specialize (IH Hget). lia.
Qed.

Lemma spec_vec_key s d tf (tf' : Counter) term :
  Inv s → dict_get d (doc_tokens s) = Some tf → term ∈ tf.*1 →
  NoDup tf'.*1 → term ∈ tf'.*1 → term ∈ (spec_vec s tf').*1.
Proof.
  intros HI Hget Hin Hnd Hin'.
  apply dict_get_is_Some. rewrite spec_vec_lookup by done.
  apply dict_get_is_Some in Hin' as [f ->]. simpl.
  unfold spec_weight. rewrite bool_decide_eq_true_2; [done|].
  pose proof (doc_count_pos term d tf _ Hget Hin) as Hcnt.
  pose proof (Inv_df_bounds s term HI) as Hb.
  rewrite (Inv_df_get s term HI) in *. lia.
Qed.

Lemma score_shared_term s query d tf :
  Inv s → dict_get d (doc_tokens s) = Some tf → shares_term query tf →
  (0 < cosine (query_vec s query) (spec_vec s tf))%R.
Proof.
  intros HI Hget (t & Ht & Ht').
  pose proof (Inv_stored_counter s d tf HI Hget) as Htf.
  pose proof (Counter_of_is_counter (_tokenize query)) as Hq.
  apply (cosine_pos _ _ t).
  - by apply spec_vec_positive.
  - by apply spec_vec_positive.
  - eapply spec_vec_key; [done..|apply Hq|]. by apply Counter_of_keys.
  - eapply spec_vec_key; [done..|apply Htf|done].
Qed.

Lemma shares_term_dec query tf : Decision (shares_term query tf).
Proof.
  destruct (decide (Exists (fun t => t ∈ tf.*1) (_tokenize query))) as [H|H].
  - left. apply Exists_exists in H. exact H.
  - right. intros Hs. apply H, Exists_exists. exact Hs.
Qed.

Lemma score_not_shared s query tf :
  Inv s → is_counter tf → ¬ shares_term query tf →
  cosine (query_vec s query) (spec_vec s tf) = 0%R.
Proof.
  intros HI Htf Hns. apply score_no_shared_term; [done..|].
  intros t Ht Ht'. apply Hns. by exists t.
Qed.

(** X7. A weight of a TF-IDF vector is at least the raw frequency of its
    term, and it is the raw frequency itself when every stored document
    contains the term. *)
Theorem tfidf_weight_at_least_frequency (calls : list AddCall)
    (tokens : list string) (term : string) :
  ∃ s vec,
    add_all __init__ calls = Ok s
    ∧ _tfidf_vec s (Counter_of tokens) = Ok vec
    ∧ match dict_get term vec with
      | Some w =>
          (IZR (Z.of_nat (occurrences term tokens)) <= w)%R
          ∧ (df_get (term_df s) term = N s →
             w = IZR (Z.of_nat (occurrences term tokens)))
      | None => True
      end.
Proof.
  destruct (add_all_init calls) as (s & Hs & HI).
  pose proof (Counter_of_is_counter tokens) as Hc.
  exists s, (spec_vec s (Counter_of tokens)).
  split_and!; [done|by apply _tfidf_vec_spec|].
  rewrite spec_vec_lookup by apply Hc. rewrite Counter_of_get.
  case_bool_decide as Hin; simpl; [|done].
  unfold spec_weight. case_bool_decide as Hd; [|done].
  pose proof (Inv_df_bounds s term HI) as Hb.
  pose proof (idf_ge_1 (N s) (df_get (term_df s) term) ltac:(lia)) as Hidf.
  assert (0 <= IZR (Z.of_nat (occurrences term tokens)))%R
    by (apply IZR_le; lia).
  split; [nra|]. intros ->. unfold idf.
  rewrite Rdiv_diag by (apply not_0_IZR; lia). rewrite ln_1. lra.
Qed.

(** X8. A result of [search] has a positive score exactly when its
    document shares a term with the query. *)
Theorem score_positive_iff_shared_term (calls : list AddCall) (query : string)
    (top_k : Z) :
  ∃ s res,
    add_all __init__ calls = Ok s
    ∧ search s query top_k = Ok res
    ∧ Forall (fun p =>
        ∃ tf, dict_get (_ScoredPoint.id p) (doc_tokens s) = Some tf
              ∧ ((0 < _ScoredPoint.score p)%R ↔ shares_term query tf)) res.
Proof.
  destruct (add_all_init calls) as (s & Hs & HI).
  exists s, (slice_to (ranking s query) top_k).
  split_and!; [done|by apply search_spec|].
  apply Forall_forall. intros p Hp%slice_to_elem.
  apply ranking_elem in Hp as (tf & Hin & ->).
  pose proof (dict_get_elem _ _ _ (inv_nodup s HI) Hin) as Hget.
  exists tf. split; [done|]. split.
  - intros Hpos. destruct (shares_term_dec query tf) as [?|Hns]; [done|].
    rewrite score_not_shared in Hpos; [lra|done| |done].
    by eapply Inv_stored_counter.
  - by eapply score_shared_term.
Qed.

(** X9. Matching documents are never cut off before a document that does
    not match: when a result with the score 0 is returned, every stored
    document that shares a term with the query is among the results. *)
Theorem matching_documents_come_first (calls : list AddCall) (query : string)
    (top_k : Z) :
  ∃ s res,
    add_all __init__ calls = Ok s
    ∧ search s query top_k = Ok res
    ∧ (Exists (fun p => _ScoredPoint.score p = 0%R) res →
       ∀ d tf, dict_get d (doc_tokens s) = Some tf → shares_term query tf →
               d ∈ map _ScoredPoint.id res).
Proof.
  destruct (add_all_init calls) as (s & Hs & HI).
  exists s, (slice_to (ranking s query) top_k).
  split_and!; [done|by apply search_spec|].
  destruct (slice_to_take (ranking s query) top_k) as [n ->].
  intros (p0 & Hp0 & Hz)%Exists_exists d tf Hget Hsh.
  assert (d ∈ map _ScoredPoint.id (ranking s query)) as Hd.
  { rewrite ranking_ids. apply dict_get_is_Some. by rewrite Hget. }
  apply list_elem_of_fmap_1 in Hd as (q & -> & Hq).
  destruct (ranking_elem s query q Hq) as (tf' & Hin' & Hscore).
  apply (dict_get_elem _ _ _ (inv_nodup s HI)) in Hin'.
  assert (tf' = tf) as -> by congruence.
  pose proof (score_shared_term s query _ tf HI Hget Hsh) as Hpos.
  rewrite <-Hscore in Hpos.
  rewrite <-(take_drop n (ranking s query)) in Hq.
  apply elem_of_app in Hq as [Hq|Hq]; [by apply list_elem_of_fmap_2|].
  exfalso. pose proof (ranking_sorted s query HI) as Hsorted.
  rewrite <-(take_drop n (ranking s query)) in Hsorted.
  pose proof (StronglySorted_app_1_elem_of _ _ _ _ _ Hsorted Hp0 Hq) as Hrb.
  unfold ranked_before in Hrb. lra.
Qed.

(** X10. No document is returned twice, and every result is a stored
    document with the payload that is stored for it. *)
Theorem search_results_distinct_and_stored (calls : list AddCall)
    (query : string) (top_k : Z) :
  ∃ s res,
    add_all __init__ calls = Ok s
    ∧ search s query top_k = Ok res
    ∧ NoDup (map _ScoredPoint.id res)
    ∧ Forall (fun p => payload <$> docs s !! _ScoredPoint.id p
                       = Some (_ScoredPoint.payload p)) res.
Proof.
  destruct (add_all_init calls) as (s & Hs & HI).
  exists s, (slice_to (ranking s query) top_k).
  split_and!; [done|by apply search_spec| |].
  - destruct (slice_to_take (ranking s query) top_k) as [n ->].
    assert (NoDup (map _ScoredPoint.id (ranking s query))) as Hnd.
    { rewrite ranking_ids. apply HI. }
    rewrite <-(take_drop n (ranking s query)), map_app in Hnd.
    by apply NoDup_app in Hnd as [? _].
  - apply Forall_forall. intros p Hp%slice_to_elem.
    pose proof (ranking_elem s query p Hp) as (tf & Hin & _).
    apply (list_elem_of_fmap_2 fst) in Hin. simpl in Hin.
    apply (inv_docs s HI) in Hin as [doc Hdoc].
    unfold ranking in Hp. apply list_elem_of_fmap_1 in Hp as (e & -> & _).
    unfold point_of in *. simpl in *. by rewrite Hdoc.
Qed.

(** X11. Asking for more results only appends: for [0 <= k <= k'] the
    results for [top_k = k] are the first [k] of the results for
    [top_k = k']. *)
Theorem search_prefix_monotone (calls : list AddCall) (query : string)
    (k k' : Z) :
  0 ≤ k ≤ k' →
  ∃ s res res',
    add_all __init__ calls = Ok s
    ∧ search s query k = Ok res
    ∧ search s query k' = Ok res'
    ∧ res = take (Z.to_nat k) res'.
Proof.
  intros Hk. destruct (add_all_init calls) as (s & Hs & HI).
  exists s, (slice_to (ranking s query) k), (slice_to (ranking s query) k').
  split_and!; [done|by apply search_spec|by apply search_spec|].
  rewrite !slice_to_pos by lia. rewrite take_take. f_equal. lia.
Qed.

(** Three documents stored, one and then two results asked for. *)
Lemma search_prefix_monotone_witness :
  ∃ s res res',
    add_all __init__ three_docs = Ok s
    ∧ search s "cough" 1 = Ok res
    ∧ search s "cough" 2 = Ok res'
    ∧ res = take (Z.to_nat 1) res'.
Proof. apply (search_prefix_monotone three_docs "cough" 1 2). lia. Defined.

(** X13. A stored document whose term-frequency table is that of the
    query (its text has the tokens of the query, in the same order of
    first occurrence, as often), and is not empty, has the score 1. *)
Theorem search_same_tokens_scores_one (calls : list AddCall) (query : string)
    (top_k : Z) :
  ∃ s res,
    add_all __init__ calls = Ok s
    ∧ search s query top_k = Ok res
    ∧ Forall (fun p =>
        _tokenize query ≠ [] →
        dict_get (_ScoredPoint.id p) (doc_tokens s)
        = Some (Counter_of (_tokenize query)) →
        _ScoredPoint.score p = 1%R) res.
Proof.
  destruct (add_all_init calls) as (s & Hs & HI).
  exists s, (slice_to (ranking s query) top_k).
  split_and!; [done|by apply search_spec|].
  apply Forall_forall. intros p Hp%slice_to_elem Hne Hget.
  apply ranking_elem in Hp as (tf & Hin & ->).
  apply (dict_get_elem _ _ _ (inv_nodup s HI)) in Hin.
  assert (tf = Counter_of (_tokenize query)) as -> by congruence.
  pose proof (Counter_of_is_counter (_tokenize query)) as Hq.
  apply cosine_self.
  - destruct (_tokenize query) as [|t ts] eqn:Htok; [done|].
    assert (t ∈ (spec_vec s (Counter_of (t :: ts))).*1) as Hin'.
    { rewrite <-Htok in *. eapply spec_vec_key; [done|done| |apply Hq|].
      - apply Counter_of_keys. rewrite Htok. left.
      - apply Counter_of_keys. rewrite Htok. left. }
    intros Hnil. rewrite Hnil in Hin'. by apply elem_of_nil in Hin'.
  - apply spec_vec_NoDup.
  - by apply spec_vec_positive.
Qed.

(** ** The index sees tokens only *)

Lemma add_all_same_view s1 s2 (calls1 calls2 : list AddCall) :
  Inv s1 → Inv s2 → doc_tokens s1 = doc_tokens s2 →
  map index_view calls1 = map index_view calls2 →
  ∃ s1' s2', add_all s1 calls1 = Ok s1' ∧ add_all s2 calls2 = Ok s2'
             ∧ Inv s1' ∧ Inv s2' ∧ doc_tokens s1' = doc_tokens s2'.
Proof.
  revert s1 s2 calls2.
  induction calls1 as [|c1 calls1 IH]; intros s1 s2 [|c2 calls2] I1 I2 Hdt Hv;
    simpl in Hv; try discriminate.
  - by exists s1, s2.
  - injection Hv as Hid Htok Hv.
    destruct (add_Inv s1 (call_doc_id c1) (call_text c1) (call_payload c1) I1)
      as (t1 & Ha1 & It1).
    destruct (add_Inv s2 (call_doc_id c2) (call_text c2) (call_payload c2) I2)
      as (t2 & Ha2 & It2).
    destruct (add_fields _ _ _ _ _ Ha1) as [Hd1 _].
    destruct (add_fields _ _ _ _ _ Ha2) as [Hd2 _].
    assert (doc_tokens t1 = doc_tokens t2) as Hdt'.
    { by rewrite Hd1, Hd2, Hid, Htok, Hdt. }
    destruct (IH t1 t2 calls2 It1 It2 Hdt' Hv) as (s1' & s2' & H1 & H2 & ?).
    exists s1', s2'. split_and!; try tauto.
    + unfold add_all in *. simpl. by rewrite Ha1.
    + unfold add_all in *. simpl. by rewrite Ha2.
Qed.

(** X14. Ranking depends on [doc_id]s and tokens only: two sequences of
    [add] calls with the same [doc_id]s and the same tokens, whatever the
    payloads and the letter case or punctuation of the texts, leave the
    same term tables and document frequencies, and two queries with the
    same tokens get results with the same [doc_id]s and scores. *)
Theorem ranking_depends_on_tokens_only (calls1 calls2 : list AddCall)
    (q1 q2 : string) (top_k : Z) :
  map index_view calls1 = map index_view calls2 →
  _tokenize q1 = _tokenize q2 →
  ∃ s1 s2 res1 res2,
    add_all __init__ calls1 = Ok s1
    ∧ add_all __init__ calls2 = Ok s2
    ∧ doc_tokens s1 = doc_tokens s2
    ∧ term_df s1 = term_df s2
    ∧ N s1 = N s2
    ∧ search s1 q1 top_k = Ok res1
    ∧ search s2 q2 top_k = Ok res2
    ∧ Forall2 (fun p1 p2 =>
                 _ScoredPoint.id p1 = _ScoredPoint.id p2
                 ∧ _ScoredPoint.score p1 = _ScoredPoint.score p2) res1 res2.
Proof.
  intros Hv Hq.
  destruct (add_all_same_view __init__ __init__ calls1 calls2
              Inv_init Inv_init eq_refl Hv) as (s1 & s2 & H1 & H2 & I1 & I2 & Hdt).
  assert (term_df s1 = term_df s2) as Hdf.
  { apply map_eq. intros term. by rewrite (inv_df s1 I1), (inv_df s2 I2), Hdt. }
  assert (N s1 = N s2) as HN.
  { by rewrite (inv_N s1 I1), (inv_size s1 I1), (inv_N s2 I2), (inv_size s2 I2), Hdt. }
  assert (scores_of s1 q1 = scores_of s2 q2) as Hsc.
  { unfold scores_of, query_vec. rewrite Hdt, Hq. apply map_ext. intros e.
    by rewrite !(spec_vec_ext s1 s2). }
  exists s1, s2, (slice_to (ranking s1 q1) top_k), (slice_to (ranking s2 q2) top_k).
  split_and!; [done|done|done|done|done|by apply search_spec|by apply search_spec|].
  unfold ranking. rewrite Hsc, !slice_to_map.
  apply Forall2_fmap, Forall_Forall2_diag, Forall_forall. by intros e _.
Qed.

(** The same two documents with other payloads, letter case and
    punctuation, and the same query in another case. *)
Lemma ranking_depends_on_tokens_only_witness :
  ∃ s1 s2 res1 res2,
    add_all __init__ two_docs = Ok s1
    ∧ add_all __init__
        [ {| call_doc_id := "d1"; call_text := "ALPHA!";
             call_payload := {["k" := "v"]} |};
          {| call_doc_id := "d2"; call_text := " Beta "; call_payload := ∅ |} ]
      = Ok s2
    ∧ doc_tokens s1 = doc_tokens s2
    ∧ term_df s1 = term_df s2
    ∧ N s1 = N s2
    ∧ search s1 "alpha" 2 = Ok res1
    ∧ search s2 "Alpha?" 2 = Ok res2
    ∧ Forall2 (fun p1 p2 =>
                 _ScoredPoint.id p1 = _ScoredPoint.id p2
                 ∧ _ScoredPoint.score p1 = _ScoredPoint.score p2) res1 res2.
Proof.
  apply (ranking_depends_on_tokens_only two_docs
           [ {| call_doc_id := "d1"; call_text := "ALPHA!";
                call_payload := {["k" := "v"]} |};
             {| call_doc_id := "d2"; call_text := " Beta "; call_payload := ∅ |} ]
           "alpha" "Alpha?" 2); reflexivity.
Defined.

(** ** The facade and its callers *)

Section Facade.
Context {QdrantClient : Type}.
Context (new_client : Result QdrantClient).
Context (client_upsert :
  QdrantClient → string → string → gmap string string → Result QdrantClient).
Context (client_search :
  QdrantClient → string → Z → Result (list _ScoredPoint.t)).

Local Abbreviation session :=
  (VectorStore.session client_upsert client_search).
Local Abbreviation keywords := (@VectorStore.keywords QdrantClient).
Local Abbreviation embeddings := (@VectorStore.embeddings QdrantClient).

Lemma session_keywords_indexed kw calls :
  Inv kw → text_indexed kw →
  ∃ kw' outs, session (keywords kw) calls = Ok (keywords kw', outs)
              ∧ Inv kw' ∧ text_indexed kw' ∧ length outs = length calls.
Proof.
  revert kw. induction calls as [|c calls IH]; intros kw HI HC; simpl.
  - by exists kw, [].
  - destruct c as [doc_id text metadata|text top_k]; simpl.
    + destruct (add_Inv kw doc_id text (VectorStore.text_and text metadata) HI)
        as (kw1 & Hadd & HI1).
      rewrite Hadd. simpl.
      pose proof (consistent_add _ _ _ _ _ HC Hadd) as HC1.
      destruct (IH kw1 HI1 HC1) as (kw' & outs & -> & HI' & HC' & Hlen).
      simpl. exists kw', (None :: outs). simpl. by rewrite Hlen.
    + rewrite search_spec by done. simpl.
      destruct (IH kw HI HC) as (kw' & outs & -> & HI' & HC' & Hlen).
      simpl. eexists kw', (_ :: outs). simpl. by rewrite Hlen.
Qed.

Lemma text_indexed_init : text_indexed __init__.
Proof. intros d. simpl. by rewrite lookup_empty. Qed.

(** X15. Keyword mode is chosen when the embeddings deployment is missing
    or the empty string, and in keyword mode nothing raises: every session
    of [add_document] and [query] calls, with any arguments, runs to its
    end, answers each call, and leaves the store in keyword mode. *)
Theorem keyword_sessions_never_raise (calls : list VectorStore.Call) :
  VectorStore.__init__ new_client None = Ok (keywords __init__)
  ∧ VectorStore.__init__ new_client (Some EmptyString) = Ok (keywords __init__)
  ∧ ∃ kw outs,
      session (keywords __init__) calls = Ok (keywords kw, outs)
      ∧ length outs = length calls.
Proof.
  split_and!; [done|done|].
  destruct (session_keywords_indexed __init__ calls Inv_init text_indexed_init)
    as (kw & outs & Hs & _ & _ & Hlen).
  by exists kw, outs.
Qed.

(** X16. In embeddings mode [add_document] hands the vector database the
    payload [{"text": text, **metadata}]: a "text" entry of the metadata
    replaces the text of the document there, and the other entries are
    those of the metadata. *)
Theorem embeddings_payload_prefers_metadata_text (client : QdrantClient)
    (doc_id text : string) (metadata : gmap string string) :
  ∃ p,
    VectorStore.add_document client_upsert (embeddings client) doc_id text metadata
    = (client' ← client_upsert client doc_id text p; Ok (embeddings client'))
    ∧ p !! "text" = Some (default text (metadata !! "text"))
    ∧ delete "text" p = delete "text" metadata.
Proof.
  exists (VectorStore.text_and text metadata). split_and!; [done| |].
  - unfold VectorStore.text_and, dict_or.
    destruct (metadata !! "text") as [t|] eqn:E; simpl.
    + by rewrite lookup_union_l', E.
    + by rewrite lookup_union_r, lookup_singleton_eq.
  - unfold VectorStore.text_and, dict_or. apply map_eq. intros k.
    destruct (decide (k = "text")) as [->|Hne].
    + by rewrite !lookup_delete_eq.
    + rewrite !lookup_delete_ne by done.
      destruct (metadata !! k) eqn:E.
      * by rewrite lookup_union_l', E.
      * by rewrite lookup_union_r, lookup_singleton_ne.
Qed.

(** X17. In keyword mode the context that [chat] builds for a question
    is made of the texts of the [min(3, N)] first-ranked stored
    documents, joined by newlines: each text is the "text" entry of a
    result's payload (the default [""] is never used), and it is the text
    whose tokens are indexed for that document. *)
Theorem chat_context_joins_stored_texts (calls : list VectorStore.Call)
    (question : string) :
  ∃ kw outs res texts,
    session (keywords __init__) calls = Ok (keywords kw, outs)
    ∧ VectorStore.query client_search (keywords kw) question 3 = Ok res
    ∧ Z.of_nat (length res) = Z.min 3 (N kw)
    ∧ Forall2 (fun p t =>
        _ScoredPoint.payload p !! "text" = Some t
        ∧ dict_get (_ScoredPoint.id p) (doc_tokens kw)
          = Some (Counter_of (_tokenize t))) res texts
    ∧ main.chat_context client_search (keywords kw) question
      = Ok (String.concat main.newline texts).
Proof.
  destruct (session_keywords_indexed __init__ calls Inv_init text_indexed_init)
    as (kw & outs & Hs & HI & HC & _).
  set (res := slice_to (ranking kw question) 3).
  set (text_of := fun p : _ScoredPoint.t =>
                    default EmptyString (_ScoredPoint.payload p !! "text")).
  exists kw, outs, res, (map text_of res).
  assert (search kw question 3 = Ok res) as Hres by (by apply search_spec).
  split_and!; [done|done| | |].
  - unfold res. rewrite slice_to_length, ranking_length. simpl.
    rewrite (inv_N kw HI), (inv_size kw HI). lia.
  - apply Forall2_fmap_r, Forall_Forall2_diag, Forall_forall.
    intros p Hp%slice_to_elem.
    pose proof (ranking_elem kw question p Hp) as (tf & Hin & _).
    apply (list_elem_of_fmap_2 fst) in Hin. simpl in Hin.
    apply (inv_docs kw HI) in Hin as [doc Hdoc].
    pose proof (HC (_ScoredPoint.id p)) as Hc. rewrite Hdoc in Hc.
    destruct Hc as (t & Ht & Htf).
    unfold ranking in Hp. apply list_elem_of_fmap_1 in Hp as (e & -> & _).
    unfold text_of, point_of in *. simpl in *. rewrite Hdoc in *. simpl.
    by rewrite Ht.
  - unfold main.chat_context. simpl. by rewrite Hres.
Qed.

End Facade.

(** ** Result counts and term weights *)

(** X18. For every [top_k], negative ones too, the number of results is
    fixed by [top_k] and [N] alone, whatever the query: [min(top_k, N)]
    for [top_k >= 0] and [max(0, N + top_k)] below; it never exceeds
    [N]. *)
Theorem search_result_count (calls : list AddCall) (query : string) (top_k : Z) :
  ∃ s res,
    add_all __init__ calls = Ok s
    ∧ search s query top_k = Ok res
    ∧ Z.of_nat (length res)
      = (if top_k <? 0 then Z.max 0 (N s + top_k) else Z.min top_k (N s))
    ∧ Z.of_nat (length res) ≤ N s.
Proof.
  destruct (add_all_init calls) as (s & Hs & HI).
  exists s, (slice_to (ranking s query) top_k).
  assert (N s = Z.of_nat (length (ranking s query))) as HN.
  { by rewrite ranking_length, (inv_N s HI), (inv_size s HI). }
  split_and!; [done|by apply search_spec| |].
  - by rewrite slice_to_length, HN.
  - rewrite slice_to_length, <-HN. destruct (Z.ltb_spec top_k 0); lia.
Qed.

Lemma idf_antitone (n df1 df2 : Z) :
  0 < df1 → df1 ≤ df2 → 0 ≤ n → (idf n df2 <= idf n df1)%R.
Proof.
  intros H1 H12 Hn. unfold idf.
  assert (0 < IZR (1 + n))%R by (apply IZR_lt; lia).
  assert (0 < IZR (1 + df1))%R by (apply IZR_lt; lia).
  assert (0 < IZR (1 + df2))%R by (apply IZR_lt; lia).
  assert (IZR (1 + df1) <= IZR (1 + df2))%R by (apply IZR_le; lia).
  assert (0 < IZR (1 + n) / IZR (1 + df2))%R by (by apply Rdiv_lt_0_compat).
  assert (IZR (1 + n) / IZR (1 + df2) <= IZR (1 + n) / IZR (1 + df1))%R as Hle.
  { unfold Rdiv. apply Rmult_le_compat_l; [lra|].
    by apply Rinv_le_contravar. }
  destruct Hle as [Hlt|Heq]; [|rewrite Heq; lra].
  pose proof (ln_increasing _ _ ltac:(done) Hlt). lra.
Qed.

(** X19. A rarer term weighs at least as much: of two terms of a TF-IDF
    vector with the same raw frequency, the one that fewer stored
    documents contain has a weight that is not smaller. *)
Theorem rarer_term_weighs_more (calls : list AddCall) (tokens : list string)
    (t1 t2 : string) :
  ∃ s vec,
    add_all __init__ calls = Ok s
    ∧ _tfidf_vec s (Counter_of tokens) = Ok vec
    ∧ match dict_get t1 vec, dict_get t2 vec with
      | Some w1, Some w2 =>
          occurrences t1 tokens = occurrences t2 tokens →
          df_get (term_df s) t1 ≤ df_get (term_df s) t2 →
          (w2 <= w1)%R
      | _, _ => True
      end.
Proof.
  destruct (add_all_init calls) as (s & Hs & HI).
  pose proof (Counter_of_is_counter tokens) as Hc.
  exists s, (spec_vec s (Counter_of tokens)).
  split_and!; [done|by apply _tfidf_vec_spec|].
  rewrite !spec_vec_lookup by apply Hc. rewrite !Counter_of_get.
  unfold spec_weight.
  destruct (bool_decide (t1 ∈ tokens)); simpl; [|done].
  case_bool_decide as Hd1; [|done].
  destruct (bool_decide (t2 ∈ tokens)); simpl; [|done].
  case_bool_decide as Hd2; [|done].
  intros Hocc Hdf. rewrite Hocc. destruct Hd1 as [Hdf1 HN].
  pose proof (idf_antitone (N s) (df_get (term_df s) t1)
                (df_get (term_df s) t2) Hdf1 Hdf) as Hidf.
  apply Rmult_le_compat_l; [apply IZR_le; lia|apply Hidf; lia].
Qed.
